(** * West Highland Way map: route extractor and geometry cleaning pipeline

    A shallow embedding of [src/utils.py], [src/extract.py] and, of
    [src/generate_map.py], the [classify] function, the nature layer and
    the points of interest.

    - Areas, distances and tolerances are Python floats in the source.  They
      are modelled as canonical rationals [Qc]: the comparison the code
      makes on them ([>]) is exact on numbers, and not-a-number does not
      arise from the area of a geometry.
    - The geometry kernel (shapely, pyproj) is not code of the repository; it
      is the interface [Geometry], and every statement about the pipeline is
      made for an arbitrary implementation of it.
    - A (Geo)DataFrame is a list of rows in index order, together with the
      ordered list of its attribute columns and its reference frame.
    - Coordinates read from a KML document are IEEE binary64 values
      ([spec_float]), because their textual form depends on whether they are
      finite.
    - The text of a KML element is a sequence of Unicode code points, as a
      Python [str] is: [split()] and [strip()] separate on every character
      that [str.isspace] accepts, not on the ASCII blanks alone. *)

From Stdlib Require Import QArith Qcanon Ascii String Floats.SpecFloat.
From Stdlib Require OrderedTypeEx.
From stdpp Require Import base option numbers list sorting gmap strings.

Local Open Scope string_scope.
Local Open Scope Qc_scope.

(** ** The geometry kernel *)

(** What the pipeline calls on shapely geometries (through geopandas'
    GeoSeries, which applies each operation row by row). *)
Class Geometry := {
  geom : Type;
  (** [g.area] *)
  area : geom → Qc;
  (** [g.buffer(d)]; a negative [d] erodes. *)
  buffer : geom → Qc → geom;
  (** [g.simplify(tol, preserve_topology=True)] *)
  simplify : geom → Qc → geom;
  (** the coordinate transformation that [to_crs] applies between two
      different frames *)
  transform : string → string → geom → geom;
  (** [shapely.unary_union] of a series of geometries *)
  unary_union : list geom → geom;
  (** [Some parts] when the geometry is a [MultiPolygon], with [parts] its
      [.geoms]; [None] for every other geometry type *)
  multi_geoms : geom → option (list geom);
}.

(** ** Data frames *)

(** A cell of an attribute column. *)
Inductive value :=
  | VStr (s : string)
  | VNum (x : Qc)
  | VNaN.

Global Instance value_eq_dec : EqDecision value.
Proof. solve_decision. Defined.

(** ** Exceptions *)

Inductive exn :=
  | KeyError (key : string)
  | ValueError (msg : string)
  | AttributeError (msg : string)
  | IndexError (msg : string)
  | OSError (msg : string).

Inductive result (A : Type) :=
  | Ok (a : A)
  | Raise (e : exn).
Arguments Ok {A} a.
Arguments Raise {A} e.

Definition bind {A B} (m : result A) (k : A → result B) : result B :=
  match m with
  | Ok a => k a
  | Raise e => Raise e
  end.

Section Frames.
Context `{G : Geometry}.

(** One row: the active geometry column (named "geometry") and the other
    cells by column name.  A column without an entry in [cells] holds a
    missing value in that row.  A frame carries its reference frame, as the
    frames read from OpenStreetMap or from a cached file do. *)
Record row := Row {
  geometry : geom;
  cells : gmap string value;
}.

Record GeoDataFrame := Frame {
  crs : string;
  columns : list string;
  rows : list row;
}.

(** What [to_crs] does to one geometry: nothing when the frame is already
    in the target reference, the transformation otherwise.  A reference
    frame is identified by its name. *)
Definition reproject (src dst : string) (g : geom) : geom :=
  if decide (src = dst) then g else transform src dst g.

(** [gdf.to_crs(target)]: reprojects the geometry column from the frame's
    own reference to [target]. *)
Definition to_crs (gdf : GeoDataFrame) (target : string) : GeoDataFrame :=
  {| crs := target;
     columns := columns gdf;
     rows := (λ r, {| geometry := reproject (crs gdf) target (geometry r);
                       cells := cells r |}) <$> rows gdf |}.

(** [gdf.geometry]: the geometry column as a series. *)
Definition geometry_series (gdf : GeoDataFrame) : list geom :=
  geometry <$> rows gdf.

(** [series.area], [series.buffer(d)], [series.simplify(tol, ...)] *)
Definition series_area (s : list geom) : list Qc := area <$> s.
Definition series_buffer (s : list geom) (d : Qc) : list geom :=
  (λ g, buffer g d) <$> s.
Definition series_simplify (s : list geom) (tol : Qc) : list geom :=
  (λ g, simplify g tol) <$> s.

(** The column labels after [df[c] = ...]: an existing column keeps its
    place, a new one is appended. *)
Definition columns_set (c : string) (cols : list string) : list string :=
  if decide (c ∈ cols) then cols else (cols ++ [c])%list.

(** [gdf[c] = series] for a numeric series on the same index. *)
Definition setitem_num (gdf : GeoDataFrame) (c : string) (s : list Qc)
    : GeoDataFrame :=
  {| crs := crs gdf;
     columns := columns_set c (columns gdf);
     rows := zip_with (λ r x, {| geometry := geometry r;
                                 cells := <[c := VNum x]> (cells r) |})
                      (rows gdf) s |}.

(** [gdf["geometry"] = series] for a geometry series on the same index. *)
Definition setitem_geometry (gdf : GeoDataFrame) (s : list geom)
    : GeoDataFrame :=
  {| crs := crs gdf;
     columns := columns gdf;
     rows := zip_with (λ r g, {| geometry := g; cells := cells r |})
                      (rows gdf) s |}.

(** [gdf[c]] read as a column of cells. *)
Definition getitem (gdf : GeoDataFrame) (c : string) : list value :=
  (λ r, default VNaN (cells r !! c)) <$> rows gdf.

(** [series > x] on a column of numbers: a missing value compares false. *)
Definition value_gt (x : Qc) (v : value) : bool :=
  match v with
  | VNum a => bool_decide (x < a)
  | _ => false
  end.
Definition series_gt (s : list value) (x : Qc) : list bool :=
  value_gt x <$> s.

(** [gdf[mask]]: the rows where the boolean mask is true, in order. *)
Fixpoint mask_select (rs : list row) (mask : list bool) : list row :=
  match rs, mask with
  | r :: rs', b :: mask' =>
      if b then r :: mask_select rs' mask' else mask_select rs' mask'
  | _, _ => []
  end.
Definition getitem_mask (gdf : GeoDataFrame) (mask : list bool)
    : GeoDataFrame :=
  {| crs := crs gdf; columns := columns gdf;
     rows := mask_select (rows gdf) mask |}.

(** ** [utils.filter_and_smooth_geometries] *)

Definition filter_and_smooth_geometries
    (gdf : GeoDataFrame)
    (area_threshold_m2 smooth_strength_m simplify_factor : Qc)
    (input_crs working_crs : string) : GeoDataFrame :=
  (* gdf_m = gdf.to_crs(working_crs) *)
  let gdf_m := to_crs gdf working_crs in
  (* gdf_m["area_m2"] = gdf_m.geometry.area *)
  let gdf_m := setitem_num gdf_m "area_m2"
                 (series_area (geometry_series gdf_m)) in
  (* gdf_filtered = gdf_m[gdf_m["area_m2"] > area_threshold_m2].copy() *)
  let gdf_filtered :=
    getitem_mask gdf_m
      (series_gt (getitem gdf_m "area_m2") area_threshold_m2) in
  (* gdf_filtered["geometry"] =
       gdf_filtered.geometry.buffer(s).buffer(-s) *)
  let gdf_filtered :=
    setitem_geometry gdf_filtered
      (series_buffer
         (series_buffer (geometry_series gdf_filtered) smooth_strength_m)
         (- smooth_strength_m)) in
  (* gdf_filtered["geometry"] = gdf_filtered.geometry.simplify(...) *)
  let gdf_filtered :=
    setitem_geometry gdf_filtered
      (series_simplify (geometry_series gdf_filtered) simplify_factor) in
  (* gdf_final = gdf_filtered.to_crs(input_crs) *)
  to_crs gdf_filtered input_crs.

(** ** Grouping by the category column *)

(** The group key of a row: its category label.  Labels are strings (they
    are written by [classify]); [groupby] skips rows whose key is
    missing.  A frame with a label that is a number is outside what this
    models. *)
Definition category_of (r : row) : option string :=
  match cells r !! "category" with
  | Some (VStr c) => Some c
  | _ => None
  end.

(** Insertion into the sorted list of distinct keys ([groupby] sorts its
    keys). *)
Fixpoint insert_key (k : string) (ks : list string) : list string :=
  match ks with
  | [] => [k]
  | k' :: ks' =>
      match String.compare k k' with
      | Lt => k :: ks
      | Eq => ks
      | Gt => k' :: insert_key k ks'
      end
  end.

Definition group_keys (rs : list row) : list string :=
  foldr (λ r ks, from_option (λ k, insert_key k ks) ks (category_of r))
        [] rs.

(** [gdf.groupby("category")]: the pairs (key, sub-frame), keys ascending,
    each sub-frame in the frame's row order. *)
Definition groupby_category (gdf : GeoDataFrame)
    : result (list (string * GeoDataFrame)) :=
  if decide ("category" ∈ columns gdf) then
    Ok ((λ k, (k, {| crs := crs gdf; columns := columns gdf;
                      rows := filter (λ r, category_of r = Some k)
                                     (rows gdf) |}))
          <$> group_keys (rows gdf))
  else Raise (KeyError "category").

(** A record appended to [final_geoms]:
    [{"category": cat, "geometry": geom}]. *)
Record styled := Styled {
  styled_category : string;
  styled_geometry : geom;
}.

(** [gpd.GeoDataFrame(records, crs=...)] on a list of such records.  The
    columns of the frame are the keys of the records; with no record there
    is no column at all, hence no geometry column to carry the reference
    frame, and geopandas refuses ("Assigning CRS to a GeoDataFrame without
    a geometry column is not supported"). *)
Definition GeoDataFrame_of_records (recs : list styled) (crs : string)
    : result GeoDataFrame :=
  match recs with
  | [] => Raise (ValueError "Assigning CRS to a GeoDataFrame without a geometry column is not supported")
  | _ :: _ =>
      Ok {| crs := crs;
            columns := ["category"];
            rows := (λ s, {| geometry := styled_geometry s;
                             cells := {[ "category" :=
                                         VStr (styled_category s) ]} |})
                    <$> recs |}
  end.

(** ** [utils.stylize_natural_geometries] *)

(** The body of the loop over the groups, on the accumulator
    [final_geoms]. *)
Definition stylize_group
    (proximity_threshold_m smooth_strength_m simplify_factor : Qc)
    (final_geoms : list styled) (cg : string * GeoDataFrame)
    : list styled :=
  let '(cat, group) := cg in
  if decide (cat ≠ "other") then
    (* buffered = group.geometry.buffer(proximity_threshold_m) *)
    let buffered :=
      series_buffer (geometry_series group) proximity_threshold_m in
    (* fused = unary_union(buffered) *)
    let fused := unary_union buffered in
    (* if smooth_strength_m > 0: fused = fused.buffer(smooth_strength_m) *)
    let fused :=
      if decide (0 < smooth_strength_m) then buffer fused smooth_strength_m
      else fused in
    (* simplified = fused.simplify(simplify_factor, ...) *)
    let simplified := simplify fused simplify_factor in
    match multi_geoms simplified with
    | Some parts =>
        (final_geoms ++ ((λ g, Styled cat g) <$> parts))%list
    | None => (final_geoms ++ [Styled cat simplified])%list
    end
  else final_geoms.

Definition stylize_natural_geometries
    (gdf : GeoDataFrame)
    (area_threshold_m2 proximity_threshold_m smooth_strength_m
       simplify_factor : Qc)
    (input_crs working_crs : string) : result GeoDataFrame :=
  (* gdf = gdf.to_crs(working_crs) *)
  let gdf := to_crs gdf working_crs in
  (* gdf["area_m2"] = gdf.geometry.area *)
  let gdf := setitem_num gdf "area_m2"
               (series_area (geometry_series gdf)) in
  (* gdf = gdf[gdf["area_m2"] > area_threshold_m2].copy() *)
  let gdf :=
    getitem_mask gdf (series_gt (getitem gdf "area_m2") area_threshold_m2) in
  (* for cat, group in gdf.groupby("category"): ... *)
  bind (groupby_category gdf) (λ groups,
    let final_geoms :=
      foldl (stylize_group proximity_threshold_m smooth_strength_m
               simplify_factor) [] groups in
    (* gdf_result = gpd.GeoDataFrame(final_geoms, crs=working_crs) *)
    bind (GeoDataFrame_of_records final_geoms working_crs) (λ gdf_result,
      (* return gdf_result.to_crs(input_crs) *)
      Ok (to_crs gdf_result input_crs))).

(** The two operations called with the default values of their keyword
    parameters. *)
Definition filter_and_smooth_geometries_default (gdf : GeoDataFrame)
    : GeoDataFrame :=
  filter_and_smooth_geometries gdf (Qc_of_Z 10000) (Qc_of_Z 10) (Qc_of_Z 3)
    "EPSG:4326" "EPSG:3857".

Definition stylize_natural_geometries_default (gdf : GeoDataFrame)
    : result GeoDataFrame :=
  stylize_natural_geometries gdf (Qc_of_Z 170000) (Qc_of_Z 10) (Qc_of_Z 5)
    (Qc_of_Z 2) "EPSG:4326" "EPSG:3857".

End Frames.

(** ** [generate_map.classify] *)

Section Classify.
Context `{G : Geometry}.

(** [row.get(k) in tags]: membership of a cell among tag values.  A missing
    column ([None]) and a missing value are equal to no tag value. *)
Definition tag_in (v : option value) (tags : list string) : bool :=
  match v with
  | Some (VStr s) => bool_decide (s ∈ tags)
  | _ => false
  end.

(** [d[k]] on a dictionary of tag lists. *)
Definition tags_of (d : gmap string (list string)) (k : string)
    : list string :=
  default [] (d !! k).

Definition grass_tags : gmap string (list string) :=
  <["natural" := ["heath"]]>
  (<["landuse" := ["meadow"; "farmland"; "grass"; "orchard"]]>
  (<["landcover" := ["grass"; "crop"]]> ∅)).

Definition forest_tags : gmap string (list string) :=
  <["landuse" := ["forest"]]>
  (<["natural" := ["wood"; "tundra"]]> ∅).

(** The body of [classify], on the two dictionaries it defines. *)
Definition classify_with (grass forest : gmap string (list string))
    (r : gmap string value) : string :=
  if tag_in (r !! "natural") (tags_of forest "natural") then "forest"
  else if tag_in (r !! "landuse") (tags_of forest "landuse") then "forest"
  else if tag_in (r !! "natural") (tags_of grass "natural") then "grass"
  else "other".

Definition classify (r : gmap string value) : string :=
  classify_with grass_tags forest_tags r.

(** [gdf["category"] = gdf.apply(classify, axis=1)] *)
Definition assign_category (gdf : GeoDataFrame) : GeoDataFrame :=
  {| crs := crs gdf;
     columns := columns_set "category" (columns gdf);
     rows := (λ r, {| geometry := geometry r;
                      cells := <["category" := VStr (classify (cells r))]>
                                 (cells r) |}) <$> rows gdf |}.

End Classify.

(** ** A geometry kernel for examples: axis-aligned boxes

    Boxes with rational corners, or the empty geometry.  Offsetting moves
    every side of a box by the distance and leaves nothing when a side
    length drops to zero or below; a box has no vertex to remove, so
    simplification returns it; the union of a series is its bounding box;
    reprojection rescales between degrees ("EPSG:4326", 111320 m per unit)
    and metres (any other frame). *)
Module BoxGeometry.

Inductive box :=
  | Empty
  | Box (xmin ymin xmax ymax : Qc).

Definition mk_box (xmin ymin xmax ymax : Qc) : box :=
  if decide (xmin < xmax ∧ ymin < ymax) then Box xmin ymin xmax ymax
  else Empty.

Definition box_area (b : box) : Qc :=
  match b with
  | Empty => 0
  | Box x0 y0 x1 y1 => (x1 - x0) * (y1 - y0)
  end.

Definition box_buffer (b : box) (d : Qc) : box :=
  match b with
  | Empty => Empty
  | Box x0 y0 x1 y1 => mk_box (x0 - d) (y0 - d) (x1 + d) (y1 + d)
  end.

Definition metres_per_unit (crs : string) : Qc :=
  if decide (crs = "EPSG:4326") then Qc_of_Z 111320 else 1.

Definition box_transform (src dst : string) (b : box) : box :=
  let k := metres_per_unit src / metres_per_unit dst in
  match b with
  | Empty => Empty
  | Box x0 y0 x1 y1 => Box (x0 * k) (y0 * k) (x1 * k) (y1 * k)
  end.

Definition Qc_min (x y : Qc) : Qc := if decide (x ≤ y) then x else y.
Definition Qc_max (x y : Qc) : Qc := if decide (x ≤ y) then y else x.

Definition box_join (a b : box) : box :=
  match a, b with
  | Empty, _ => b
  | _, Empty => a
  | Box x0 y0 x1 y1, Box x0' y0' x1' y1' =>
      Box (Qc_min x0 x0') (Qc_min y0 y0') (Qc_max x1 x1') (Qc_max y1 y1')
  end.

#[export] Instance box_geometry : Geometry := {|
  geom := box;
  area := box_area;
  buffer := box_buffer;
  simplify := λ b _, b;
  transform := box_transform;
  unary_union := foldr box_join Empty;
  multi_geoms := λ _, None;
|}.

End BoxGeometry.

(** ** [extract.extract_kml_segments] *)

(** The text of an XML element is a Python [str]: the sequence of its
    Unicode code points. *)
Definition str : Type := list N.

(** The [str] of a literal whose characters are all ASCII. *)
Definition str_of (s : string) : str :=
  N_of_ascii <$> list_ascii_of_string s.

(** [str.isspace] on a character, which is what [split()] and [strip()]
    separate on: tab to carriage return, the separators 28 to 31, the
    space, and the white space beyond ASCII (U+0085, U+00A0, U+1680,
    U+2000 to U+200A, U+2028, U+2029, U+202F, U+205F, U+3000). *)
Definition is_space (c : N) : bool :=
  ((9 <=? c) && (c <=? 13) || (28 <=? c) && (c <=? 32)
   || (c =? 133) || (c =? 160) || (c =? 5760)
   || (8192 <=? c) && (c <=? 8202)
   || (c =? 8232) || (c =? 8233) || (c =? 8239) || (c =? 8287)
   || (c =? 12288))%N.

(** The pieces of a string between separator characters, empty pieces
    included. *)
Fixpoint pieces (sep : N → bool) (s : str) : list str :=
  match s with
  | [] => [[]]
  | c :: s' =>
      if sep c then [] :: pieces sep s'
      else match pieces sep s' with
           | w :: ws => (c :: w) :: ws
           | [] => [[c]]
           end
  end.

(** [s.split()]: the maximal runs of non-blank characters. *)
Definition split_whitespace (s : str) : list str :=
  filter (λ w, w ≠ []) (pieces is_space s).

(** [s.split(",")]; the comma is the code point 44. *)
Definition split_comma (s : str) : list str :=
  pieces (N.eqb 44) s.

(** [s.strip()] *)
Fixpoint lstrip (cs : str) : str :=
  match cs with
  | c :: cs' => if is_space c then lstrip cs' else cs
  | [] => []
  end.
Definition strip (s : str) : str :=
  rev (lstrip (rev (lstrip s))).

(** [[f(x) for x in l]] where [f] may raise: the first exception wins. *)
Fixpoint traverse {A B} (f : A → result B) (l : list A) : result (list B) :=
  match l with
  | [] => Ok []
  | x :: l' => bind (f x) (λ y, bind (traverse f l') (λ ys, Ok (y :: ys)))
  end.

(** A [Placemark] element as the extractor reads it: its [kml:name] child
    and its first [kml:coordinates] descendant, each absent ([None]) or
    present with its [.text] (itself [None] for an element without text).
    The name is carried to the row as it is and never inspected. *)
Record placemark := Placemark {
  name_element : option (option string);
  coordinates_element : option (option str);
}.

(** A row of the table built from the placemarks. *)
Record route_row := RouteRow {
  Name : option string;
  Coordinates : list (list spec_float);
}.

(** [df.iloc[start:stop]] with Python's treatment of negative and
    out-of-range bounds. *)
Definition slice_bound (n i : Z) : Z :=
  if (i <? 0)%Z then Z.max 0 (i + n) else Z.min i n.
Definition iloc_slice {A} (l : list A) (start stop : Z) : list A :=
  let n := Z.of_nat (length l) in
  let a := slice_bound n start in
  let b := slice_bound n stop in
  take (Z.to_nat (b - a)) (drop (Z.to_nat a) l).

Section Extract.
(** Python's [float] on a string: [None] when it raises [ValueError]. *)
Variable float : str → option spec_float.

Definition float_or_raise (s : str) : result spec_float :=
  match float s with
  | Some x => Ok x
  | None => Raise (ValueError "could not convert string to float")
  end.

(** The body of the loop over the placemarks. *)
Definition read_placemark (pm : placemark) : result route_row :=
  (* name = placemark.find("kml:name").text if ... is not None
            else "Unnamed" *)
  let name :=
    match name_element pm with
    | Some text => text
    | None => Some "Unnamed"
    end in
  (* coordinates = placemark.find(".//kml:coordinates").text.strip() *)
  match coordinates_element pm with
  | None =>
      Raise (AttributeError "'NoneType' object has no attribute 'text'")
  | Some None =>
      Raise (AttributeError "'NoneType' object has no attribute 'strip'")
  | Some (Some text) =>
      let coordinates := strip text in
      (* coords_list = [tuple(map(float, coord.strip().split(",")))
                        for coord in coordinates.split()] *)
      bind (traverse (λ coord,
                        traverse float_or_raise (split_comma (strip coord)))
                     (split_whitespace coordinates))
           (λ coords_list,
              Ok {| Name := name; Coordinates := coords_list |})
  end.

(** The function returns [(segments_df, points_df)].  A table made from an
    empty list of records has no column, so selecting ["Coordinates"]
    raises.  These are the tables of the call, from the parsed document;
    the writes of [save_csv] follow in [extract_kml_segments_save_csv]. *)
Definition extract_kml_segments (doc : list placemark)
    (segment_slice : Z * Z) : result (list route_row * list route_row) :=
  bind (traverse read_placemark doc) (λ segments,
    match segments with
    | [] => Raise (KeyError "Coordinates")
    | _ :: _ =>
        (* points_df = segments_df[... len(x) == 1] *)
        let points_df :=
          filter (λ r, length (Coordinates r) = 1%nat) segments in
        (* segments_df = segments_df[... len(x) > 1] *)
        let segments_df :=
          filter (λ r, (1 < length (Coordinates r))%nat) segments in
        (* segments_df = segments_df.iloc[slice[0] : slice[1]] *)
        let segments_df :=
          iloc_slice segments_df (fst segment_slice) (snd segment_slice) in
        Ok (segments_df, points_df)
    end).

(** The whole call, with its parameter [save_csv]: once the tables are
    made, [points_df.to_csv(...)] and then [segments_df.to_csv(...)].
    Whether a write returns is the file system's answer: [None] when it
    returns, the exception otherwise. *)
Variables to_csv_points to_csv_segments : list route_row → option exn.

Definition extract_kml_segments_save_csv (doc : list placemark)
    (segment_slice : Z * Z) (save_csv : bool)
    : result (list route_row * list route_row) :=
  bind (extract_kml_segments doc segment_slice) (λ '(segments_df, points_df),
    if save_csv then
      match to_csv_points points_df with
      | Some e => Raise e
      | None =>
          match to_csv_segments segments_df with
          | Some e => Raise e
          | None => Ok (segments_df, points_df)
          end
      end
    else Ok (segments_df, points_df)).

End Extract.

(** The default value of the parameter [segment_slice]. *)
Definition default_segment_slice : Z * Z := (3%Z, 11%Z).

(** ** The Coordinates cell of the tabular files

    [to_csv] writes [str(coords_list)] into the cell and [read_csv] returns
    that text.  The text is modelled after tokenisation.  A [NUMBER] token
    is the decimal literal that [repr] prints for a finite non-negative
    float; Python's [repr] prints the shortest literal that reads back as
    the same float, so the token carries the float itself.  Infinities and
    not-a-number are printed as the identifiers [inf] and [nan]. *)
Inductive token :=
  | LBRACK | RBRACK | LPAR | RPAR | COMMA | MINUS
  | NUMBER (x : spec_float)
  | NAME (id : string).

Definition sign_tokens (s : bool) : list token :=
  if s then [MINUS] else [].

(** [repr(x)] for a float *)
Definition repr_float (x : spec_float) : list token :=
  match x with
  | S754_nan => [NAME "nan"]
  | S754_infinity s => sign_tokens s ++ [NAME "inf"]
  | S754_zero s | S754_finite s _ _ => sign_tokens s ++ [NUMBER (SFabs x)]
  end.

(** [", ".join(items)] *)
Fixpoint join_comma (items : list (list token)) : list token :=
  match items with
  | [] => []
  | [x] => x
  | x :: rest => x ++ COMMA :: join_comma rest
  end.

(** [repr(t)] for a tuple of floats: a one-element tuple ends in a comma. *)
Definition repr_tuple (t : list spec_float) : list token :=
  match t with
  | [x] => LPAR :: repr_float x ++ [COMMA; RPAR]
  | _ => LPAR :: join_comma (repr_float <$> t) ++ [RPAR]
  end.

(** [str(coords_list)]: the text of the Coordinates cell. *)
Definition coordinates_cell (l : list (list spec_float)) : list token :=
  LBRACK :: join_comma (repr_tuple <$> l) ++ [RBRACK].

(** [ast.literal_eval] on such a text, as a reader of list displays of
    tuple displays of signed number literals.  Its states say what has been
    read: the tuples so far, and inside a tuple its items so far and whether
    a comma was seen (a parenthesised number without comma is not a
    tuple). *)
Inductive reader :=
  | ListItem (acc : list (list spec_float))
  | ListSep (acc : list (list spec_float))
  | TupleItem (acc : list (list spec_float)) (items : list spec_float)
  | TupleNeg (acc : list (list spec_float)) (items : list spec_float)
              (comma : bool)
  | TupleSep (acc : list (list spec_float)) (items : list spec_float)
              (comma : bool)
  | Finished (acc : list (list spec_float))
  | Malformed.

Definition read_token (st : reader) (t : token) : reader :=
  match st, t with
  | ListItem acc, LPAR => TupleItem acc []
  | ListItem acc, RBRACK => Finished acc
  | ListSep acc, COMMA => ListItem acc
  | ListSep acc, RBRACK => Finished acc
  | TupleItem acc items, NUMBER x =>
      TupleSep acc (items ++ [x]) (bool_decide (items ≠ []))
  | TupleItem acc items, MINUS =>
      TupleNeg acc items (bool_decide (items ≠ []))
  | TupleItem acc items, RPAR => ListSep (acc ++ [items])
  | TupleNeg acc items comma, NUMBER x =>
      TupleSep acc (items ++ [SFopp x]) comma
  | TupleSep acc items comma, COMMA => TupleItem acc items
  | TupleSep acc items comma, RPAR =>
      if comma then ListSep (acc ++ [items]) else Malformed
  | _, _ => Malformed
  end.

Definition literal_eval (text : list token)
    : result (list (list spec_float)) :=
  match text with
  | LBRACK :: text' =>
      match foldl read_token (ListItem []) text' with
      | Finished acc => Ok acc
      | _ => Raise (ValueError "malformed node or string")
      end
  | _ => Raise (ValueError "malformed node or string")
  end.

(** [Point(literal_eval(coord)[0][0], literal_eval(coord)[0][1])]: the
    longitude and latitude of a row of the points table. *)
Definition point_of_cell (text : list token)
    : result (spec_float * spec_float) :=
  bind (literal_eval text) (λ l,
    match l with
    | (lon :: lat :: _) :: _ => Ok (lon, lat)
    | _ => Raise (IndexError "index out of range")
    end).

(** An implementation of [float] for examples: it agrees with Python's
    [float] on the strings it accepts, which are [inf], [nan] and the
    unsigned decimal integers. *)
Definition digit_of (c : N) : option Z :=
  if ((48 <=? c)%N && (c <=? 57)%N)%bool then Some (Z.of_N c - 48)%Z
  else None.

Fixpoint decimal_value (acc : Z) (s : str) : option Z :=
  match s with
  | [] => Some acc
  | c :: s' =>
      match digit_of c with
      | Some d => decimal_value (10 * acc + d)%Z s'
      | None => None
      end
  end.

Definition float_of_simple (s : str) : option spec_float :=
  if decide (s = str_of "inf") then Some (S754_infinity false)
  else if decide (s = str_of "nan") then Some S754_nan
  else if decide (s = []) then None
  else (λ n, binary_normalize 53 1024 n 0 false) <$> decimal_value 0 s.

(** A float that is a number: neither an infinity nor not-a-number. *)
Definition is_finite (x : spec_float) : bool :=
  match x with
  | S754_zero _ | S754_finite _ _ _ => true
  | S754_infinity _ | S754_nan => false
  end.

(** ** Vocabulary of the statements about the cleaning pipeline *)

Section Vocabulary.
Context `{G : Geometry}.

(** The planar area of a row's geometry once it is expressed in the working
    frame, before any smoothing. *)
Definition metric_area (src_crs working_crs : string) (r : row) : Qc :=
  area (reproject src_crs working_crs (geometry r)).

(** A row after reprojection to the working frame, with its area recorded
    in the column "area_m2". *)
Definition measured_row (src_crs working_crs : string) (r : row) : row :=
  {| geometry := reproject src_crs working_crs (geometry r);
     cells := <["area_m2" := VNum (metric_area src_crs working_crs r)]>
                (cells r) |}.

(** What the generic filter makes of a geometry it retains: reprojection,
    buffer out and in, simplification, reprojection back. *)
Definition cleaned_geometry (src_crs working_crs input_crs : string)
    (smooth_strength_m simplify_factor : Qc) (g : geom) : geom :=
  reproject working_crs input_crs
    (simplify
       (buffer (buffer (reproject src_crs working_crs g) smooth_strength_m)
               (- smooth_strength_m))
       simplify_factor).

(** The output row of the generic filter for a retained input row. *)
Definition cleaned_row (src_crs working_crs input_crs : string)
    (smooth_strength_m simplify_factor : Qc) (r : row) : row :=
  {| geometry := cleaned_geometry src_crs working_crs input_crs
                   smooth_strength_m simplify_factor (geometry r);
     cells := <["area_m2" := VNum (metric_area src_crs working_crs r)]>
                (cells r) |}.

(** A row of an output of the generic filter is settled when a further run
    would find it as it is: its geometry is reproduced by the cleaning
    chain, and its area in the working frame is the recorded one and
    exceeds the threshold. *)
Definition settled (working_crs input_crs : string)
    (area_threshold_m2 smooth_strength_m simplify_factor : Qc) (r : row)
    : Prop :=
  area_threshold_m2 < metric_area input_crs working_crs r
  ∧ cells r !! "area_m2" = Some (VNum (metric_area input_crs working_crs r))
  ∧ cleaned_geometry input_crs working_crs input_crs
      smooth_strength_m simplify_factor (geometry r) = geometry r.

End Vocabulary.

(** * Concrete inputs *)

Module Examples.
Import BoxGeometry.

(** A length of [n] metres, in degrees. *)
Definition metres (n : Z) : Qc := Qc_of_Z n / Qc_of_Z 111320.

(** The box with a corner at the origin, [w] metres wide and [h] high. *)
Definition patch (w h : Z) (tags : gmap string value) : @row box_geometry :=
  {| geometry := Box 0 0 (metres w) (metres h); cells := tags |}.

(** Water features: a ditch of 15 m by 1000 m, a pond of 5 m by 5 m and a
    loch of 500 m by 1000 m. *)
Definition lakes : @GeoDataFrame box_geometry :=
  {| crs := "EPSG:4326";
     columns := ["natural"];
     rows := [patch 15 1000 {[ "natural" := VStr "water" ]};
              patch 5 5 {[ "natural" := VStr "water" ]};
              patch 500 1000 {[ "natural" := VStr "water" ]}] |}.

(** The ditch alone. *)
Definition ditch : @GeoDataFrame box_geometry :=
  {| crs := "EPSG:4326";
     columns := ["natural"];
     rows := [patch 15 1000 {[ "natural" := VStr "water" ]}] |}.

(** The loch again, in a frame that already has a column "area_m2". *)
Definition measured_loch : @GeoDataFrame box_geometry :=
  {| crs := "EPSG:4326";
     columns := ["natural"; "area_m2"];
     rows := [patch 500 1000 (<["area_m2" := VNum (Qc_of_Z 5)]>
                                {[ "natural" := VStr "water" ]})] |}.

(** Land cover: a wood and a heath of 500 m by 1000 m, and a meadow of the
    same size, labelled by [classify]. *)
Definition nature : @GeoDataFrame box_geometry :=
  assign_category
    {| crs := "EPSG:4326";
       columns := ["natural"; "landuse"];
       rows := [patch 500 1000 {[ "natural" := VStr "wood" ]};
                patch 500 1000 {[ "natural" := VStr "heath" ]};
                patch 500 1000 {[ "landuse" := VStr "meadow" ]}] |}.

(** Land cover with nothing but meadows and farmland. *)
Definition farmland : @GeoDataFrame box_geometry :=
  assign_category
    {| crs := "EPSG:4326";
       columns := ["landuse"];
       rows := [patch 500 1000 {[ "landuse" := VStr "meadow" ]};
                patch 1000 1000 {[ "landuse" := VStr "farmland" ]}] |}.

(** The default parameters of the two operations. *)
Definition wgs84 : string := "EPSG:4326".
Definition web_mercator : string := "EPSG:3857".

(** A document with two points of interest and five paths. *)
Definition path (name coordinates : string) : placemark :=
  {| name_element := Some (Some name);
     coordinates_element := Some (Some (str_of coordinates)) |}.

Definition route_document : list placemark :=
  [ path "Milngavie" "4,55,0";
    path "Stage 1" "4,55,0 4,56,0";
    path "Stage 2" "4,56,0 5,56,0";
    path "Stage 3" "5,56,0 5,57,0";
    path "Fort William" "5,56,0";
    path "Stage 4" "5,57,0 6,57,0";
    path "Stage 5" "6,57,0 6,58,0 7,58,0" ].

(** A document with a single path. *)
Definition one_path_document : list placemark :=
  [ path "Stage 1" "4,55,0 4,56,0" ].

(** A document whose only placemark has a coordinate that is not a
    number. *)
Definition summit_document : list placemark :=
  [ path "Summit" "inf,0" ].

(** Milngavie and Fort William as (longitude, latitude, elevation). *)
Definition town_coordinates : list (list spec_float) :=
  [ [S754_finite true 4856794428147027 (-50);
     S754_finite false 7873038057331910 (-47);
     S754_zero false];
    [S754_finite true 5749070104319807 (-50);
     S754_finite false 7996675940852066 (-47);
     S754_zero false] ].

End Examples.

(** ** The map composer: the code of [generate_map.py] around the pipeline *)

Section Composer.
Context `{G : Geometry}.

(** [FOREST_COLOR], [GRASS_COLOR] and the dictionary [nature_colors]. *)
Definition FOREST_COLOR : string := "#6a845e".
Definition GRASS_COLOR : string := "#adb88f".
Definition nature_colors : gmap string string :=
  <["forest" := FOREST_COLOR]> (<["grass" := GRASS_COLOR]> ∅).

(** One call of [group.plot(ax=ax, facecolor=color, ..., label=cat)]: a
    layer added to the canvas. *)
Record layer := Layer {
  facecolor : string;
  label : string;
  shapes : list row;
}.

(** The body of the plotting loop, on the canvas so far. *)
Definition plot_group (canvas : list layer) (cg : string * GeoDataFrame)
    : list layer :=
  let '(cat, group) := cg in
  (* if cat in nature_colors: *)
  if decide (is_Some (nature_colors !! cat)) then
    (* color = nature_colors.get(cat, "#cccccc") *)
    let color := default "#cccccc" (nature_colors !! cat) in
    (canvas ++ [Layer color cat (rows group)])%list
  else canvas.

(** [for cat, group in gdf_nature.groupby("category"): ...] *)
Definition plot_nature (gdf_nature : GeoDataFrame) : result (list layer) :=
  bind (groupby_category gdf_nature)
       (λ groups, Ok (foldl plot_group [] groups)).

(** The nature layer from the loaded features to the canvas:
    [gdf_nature["category"] = gdf_nature.apply(classify, axis=1)],
    [stylize_natural_geometries(gdf_nature, area_threshold_m2=170000)] and
    the plotting loop. *)
Definition draw_nature (gdf_nature : GeoDataFrame) : result (list layer) :=
  let gdf_nature := assign_category gdf_nature in
  bind (stylize_natural_geometries_default gdf_nature) plot_nature.

End Composer.

(** The column Coordinates of a table as [to_csv] writes it and [read_csv]
    returns it. *)
Definition to_csv_coordinates (df : list route_row) : list (list token) :=
  (λ r, coordinates_cell (Coordinates r)) <$> df.

(** [points_df["Coordinates"].apply(lambda coord: Point(...))]: the point of
    every row, the first exception winning. *)
Definition points_geometry (column : list (list token))
    : result (list (spec_float * spec_float)) :=
  traverse point_of_cell column.

(** ** Vocabulary of the further statements *)

(** The order in which [groupby] sorts its keys. *)
Definition string_lt (a b : string) : Prop := String.compare a b = Lt.
Definition string_le (a b : string) : Prop := String.compare a b ≠ Gt.

Section MergeVocabulary.
Context `{G : Geometry}.

(** The rows that pass the area filter. *)
Definition retained (gdf : GeoDataFrame) (area_threshold_m2 : Qc)
    (working_crs : string) : list row :=
  filter (λ r, area_threshold_m2 < metric_area (crs gdf) working_crs r)
         (rows gdf).

(** The frame without the rows that fail the area filter. *)
Definition without_small (gdf : GeoDataFrame) (area_threshold_m2 : Qc)
    (working_crs : string) : GeoDataFrame :=
  {| crs := crs gdf; columns := columns gdf;
     rows := retained gdf area_threshold_m2 working_crs |}.

(** The merged shape of a list of source rows: buffer by the proximity
    distance in the working frame, union, optional further buffer,
    simplification. *)
Definition merged_shape (src_crs working_crs : string)
    (proximity_threshold_m smooth_strength_m simplify_factor : Qc)
    (rs : list row) : geom :=
  let fused :=
    unary_union ((λ r, buffer (reproject src_crs working_crs (geometry r))
                              proximity_threshold_m) <$> rs) in
  let fused :=
    if decide (0 < smooth_strength_m) then buffer fused smooth_strength_m
    else fused in
  simplify fused simplify_factor.

(** The polygons a shape is emitted as. *)
Definition polygons_of (g : geom) : list geom :=
  match multi_geoms g with
  | Some parts => parts
  | None => [g]
  end.

(** The source rows labelled [k]. *)
Definition labelled (k : string) (rs : list row) : list row :=
  filter (λ r, category_of r = Some k) rs.

(** The records the loop emits for the group of key [k]. *)
Definition emitted (src wc : string) (prox s tol : Qc) (rs : list row)
    (k : string) : list styled :=
  Styled k <$> polygons_of (merged_shape src wc prox s tol (labelled k rs)).

(** The records of a whole run of the loop over the groups of [rs]. *)
Definition merged_records (src wc : string) (prox s tol : Qc)
    (rs : list row) : list styled :=
  mjoin (emitted src wc prox s tol rs
           <$> filter (λ k, k ≠ "other") (group_keys rs)).

(** The shapes the loop makes, one for each group key other than "other",
    in the order of the keys. *)
Definition merged_shapes (src wc : string) (prox s tol : Qc)
    (rs : list row) : list geom :=
  (λ k, merged_shape src wc prox s tol (labelled k rs))
    <$> filter (λ k, k ≠ "other") (group_keys rs).

(** The shapes of the run that draws the nature layer. *)
Definition nature_shapes (gdf : GeoDataFrame) : list geom :=
  merged_shapes (crs gdf) "EPSG:3857" (Qc_of_Z 10) (Qc_of_Z 5) (Qc_of_Z 2)
    (retained (assign_category gdf) (Qc_of_Z 170000) "EPSG:3857").

(** Rows whose category label is a string, as [classify] writes it, or is
    missing: no label is a number. *)
Definition string_labels (rs : list row) : Prop :=
  Forall (λ r, match cells r !! "category" with
               | Some (VNum _) => False
               | _ => True
               end) rs.

(** The output row made from a record. *)
Definition styled_row (working_crs input_crs : string) (x : styled) : row :=
  {| geometry := reproject working_crs input_crs (styled_geometry x);
     cells := {[ "category" := VStr (styled_category x) ]} |}.

(** The category labels of the rows of a frame, in row order. *)
Definition categories (rs : list row) : list string :=
  omap category_of rs.

End MergeVocabulary.

(** A frame with a single row of another frame. *)
Definition single_row `{G : Geometry} (gdf : GeoDataFrame) (r : row)
    : GeoDataFrame :=
  {| crs := crs gdf; columns := columns gdf; rows := [r] |}.

(** A placemark that the extractor can read: it has a coordinates text, and
    every comma-separated field of every blank-separated token of that text
    is accepted by [float]. *)
Definition readable (float : str → option spec_float) (pm : placemark)
    : Prop :=
  ∃ text, coordinates_element pm = Some (Some text)
    ∧ Forall (λ tok, Forall (λ field, is_Some (float field))
                            (split_comma tok))
             (split_whitespace text).

(** The name the extractor gives to the row of a placemark. *)
Definition row_name (pm : placemark) : option string :=
  match name_element pm with
  | Some text => text
  | None => Some "Unnamed"
  end.

(** ** Further inputs *)

Module Scenes.
Import BoxGeometry Examples.

(** The land cover of [nature] as it is loaded, before classification. *)
Definition land_cover : @GeoDataFrame box_geometry :=
  {| crs := "EPSG:4326";
     columns := ["natural"; "landuse"];
     rows := [patch 500 1000 {[ "natural" := VStr "wood" ]};
              patch 500 1000 {[ "natural" := VStr "heath" ]};
              patch 500 1000 {[ "landuse" := VStr "meadow" ]}] |}.

(** A second land cover: the same wood, a larger heath, and a copse of
    300 m by 300 m, which is below the area threshold. *)
Definition moorland : @GeoDataFrame box_geometry :=
  assign_category
    {| crs := "EPSG:4326";
       columns := ["natural"];
       rows := [patch 2000 1000 {[ "natural" := VStr "heath" ]};
                patch 500 1000 {[ "natural" := VStr "wood" ]};
                patch 300 300 {[ "natural" := VStr "wood" ]}] |}.

(** A document whose third placemark has a field that is no number, and
    whose last placemark has no coordinates element. *)
Definition damaged_stage : placemark := path "Stage 2" "4,x,0 5,56,0".

Definition damaged_document : list placemark :=
  [ path "Milngavie" "4,55,0";
    path "Stage 1" "4,55,0 4,56,0";
    damaged_stage;
    {| name_element := None; coordinates_element := None |} ].

(** A path whose two coordinates are separated by a no-break space
    (U+00A0), and one with a no-break space inside a coordinate. *)
Definition spaced_path : placemark :=
  {| name_element := Some (Some "Stage 6");
     coordinates_element :=
       Some (Some (str_of "4,55,0" ++ [160%N] ++ str_of "4,56,0")%list) |}.

Definition spaced_field : placemark :=
  {| name_element := Some (Some "Stage 7");
     coordinates_element :=
       Some (Some (str_of "4," ++ [160%N] ++ str_of "5")%list) |}.

End Scenes.

(** * Properties of the data-frame operations *)

Section FrameFacts.
Context `{G : Geometry}.

Lemma mask_select_fmap (P : row → Prop) `{!∀ r, Decision (P r)}
    (f : row → row) (rs : list row) :
  mask_select (f <$> rs) ((λ r, bool_decide (P r)) <$> rs)
  = f <$> filter P rs.
Proof.
  induction rs as [|r rs IH]; [done|].
  cbn [fmap list_fmap mask_select]. rewrite filter_cons.
  destruct (decide (P r)) as [HP|HP].
  - rewrite bool_decide_eq_true_2 by done. cbn. by f_equal.
  - rewrite bool_decide_eq_false_2 by done. exact IH.
Qed.

(** The first three steps of both operations: reprojection, the area
    column and the area filter. *)
Lemma area_filter_rows (gdf : GeoDataFrame) (thr : Qc) (wc : string) :
  let gdf_m := to_crs gdf wc in
  let gdf_m := setitem_num gdf_m "area_m2"
                 (series_area (geometry_series gdf_m)) in
  rows (getitem_mask gdf_m (series_gt (getitem gdf_m "area_m2") thr))
  = measured_row (crs gdf) wc
      <$> filter (λ r, thr < metric_area (crs gdf) wc r) (rows gdf).
Proof.
  unfold to_crs, getitem_mask, setitem_num, getitem, series_gt, series_area,
    geometry_series.
  cbn [rows crs columns].
  assert (Hm : zip_with
                 (λ (r : row) (x : Qc),
                    {| geometry := geometry r;
                       cells := <["area_m2" := VNum x]> (cells r) |})
                 ((λ r : row,
                     {| geometry := reproject (crs gdf) wc (geometry r);
                        cells := cells r |}) <$> rows gdf)
                 (area <$> (geometry <$>
                    ((λ r : row,
                        {| geometry := reproject (crs gdf) wc (geometry r);
                           cells := cells r |}) <$> rows gdf)))
               = measured_row (crs gdf) wc <$> rows gdf).
  { induction (rows gdf) as [|r rs IH]; [done|]. cbn. by f_equal. }
  rewrite Hm. clear Hm.
  assert (Hmask : (value_gt thr <$>
                     ((λ r : row, default VNaN (cells r !! "area_m2"))
                        <$> (measured_row (crs gdf) wc <$> rows gdf)))
                  = (λ r, bool_decide (thr < metric_area (crs gdf) wc r))
                      <$> rows gdf).
  { rewrite <-!list_fmap_compose. apply list_fmap_ext. intros i r _.
    cbn. by rewrite lookup_insert_eq. }
  by rewrite Hmask, mask_select_fmap.
Qed.

(** The rows of the generic filter's output, in closed form. *)
Lemma filter_and_smooth_rows (gdf : GeoDataFrame) (thr s tol : Qc)
    (ic wc : string) :
  rows (filter_and_smooth_geometries gdf thr s tol ic wc)
  = cleaned_row (crs gdf) wc ic s tol
      <$> filter (λ r, thr < metric_area (crs gdf) wc r) (rows gdf).
Proof.
  pose proof (area_filter_rows gdf thr wc) as Hkept. cbv zeta in Hkept.
  transitivity
    ((λ r : row,
        {| geometry := reproject wc ic
                         (simplify (buffer (buffer (geometry r) s) (- s)) tol);
           cells := cells r |})
       <$> (measured_row (crs gdf) wc
              <$> filter (λ r, thr < metric_area (crs gdf) wc r) (rows gdf)));
    [|by rewrite <-list_fmap_compose].
  rewrite <-Hkept. clear Hkept.
  unfold filter_and_smooth_geometries, to_crs, setitem_geometry,
    getitem_mask, series_buffer, series_simplify, geometry_series.
  cbn [rows crs columns].
  set (kept := mask_select _ _).
  rewrite <-!list_fmap_compose.
  induction kept as [|r rs IH]; [done|].
  cbn. f_equal. exact IH.
Qed.

Lemma filter_and_smooth_crs (gdf : GeoDataFrame) (thr s tol : Qc)
    (ic wc : string) :
  crs (filter_and_smooth_geometries gdf thr s tol ic wc) = ic.
Proof. done. Qed.

Lemma filter_and_smooth_columns (gdf : GeoDataFrame) (thr s tol : Qc)
    (ic wc : string) :
  columns (filter_and_smooth_geometries gdf thr s tol ic wc)
  = columns_set "area_m2" (columns gdf).
Proof. done. Qed.

End FrameFacts.

Section ListFacts.
Context {A : Type} (P : A → Prop) `{!∀ x, Decision (P x)}.

(** The positions at which a filter keeps an element. *)
Lemma filter_positions (l : list A) :
  ∃ pos : list nat,
    StronglySorted lt pos
    ∧ (∀ i, i ∈ pos ↔ ∃ x, l !! i = Some x ∧ P x)
    ∧ Forall2 (λ i x, l !! i = Some x) pos (filter P l).
Proof.
  induction l as [|x l (pos & Hsort & Hmem & Hall)].
  { exists []. split_and!; [constructor| |constructor].
    intros i. split; [by intros ?%elem_of_nil|by intros (? & ? & _)]. }
  assert (Hsort' : StronglySorted lt (S <$> pos)).
  { clear -Hsort. induction Hsort as [|j pos _ IH Hj]; cbn; constructor; [done|].
    apply Forall_fmap. eapply Forall_impl; [exact Hj|]. cbn. lia. }
  assert (Hmem' : ∀ i, i ∈ S <$> pos ↔ ∃ y, (x :: l) !! i = Some y ∧ P y ∧ i ≠ 0%nat).
  { intros i. rewrite list_elem_of_fmap. split.
    - intros (j & -> & Hj). apply Hmem in Hj as (y & ? & ?). by exists y.
    - intros (y & Hy & HP & Hi). destruct i as [|j]; [done|].
      exists j. split; [done|]. apply Hmem. by exists y. }
  assert (Hall' : Forall2 (λ i y, (x :: l) !! i = Some y) (S <$> pos) (filter P l)).
  { apply Forall2_fmap_l. eapply Forall2_impl; [exact Hall|]. done. }
  rewrite filter_cons. destruct (decide (P x)) as [HP|HP].
  - exists (0%nat :: (S <$> pos)). split_and!.
    + constructor; [done|]. apply Forall_fmap, Forall_true. cbn. lia.
    + intros i. rewrite elem_of_cons, Hmem'. split.
      * intros [->|(y & ? & ? & _)]; [by exists x|by exists y].
      * intros (y & Hy & HPy). destruct i; [by left|right; by exists y].
    + by constructor.
  - exists (S <$> pos). split_and!; [done| |done].
    intros i. rewrite Hmem'. split.
    + intros (y & ? & ? & _). by exists y.
    + intros (y & Hy & HPy). exists y. split_and!; [done..|].
      intros ->. cbn in Hy. by simplify_eq.
Qed.

End ListFacts.

(** * The generic filter: [filter_and_smooth_geometries] *)

Section GenericFilter.
Context `{G : Geometry}.
Implicit Types (gdf : GeoDataFrame) (thr s tol : Qc) (ic wc : string).

(** C1.  The generic filter discards exactly the rows whose geometry has, in
    the working frame and before smoothing, an area less than or equal to
    the threshold.  There is an increasing list of input positions, the
    retained ones, such that an input position is retained exactly when its
    area is strictly greater than the threshold and is missing from it
    exactly when its area is at most the threshold; the output rows are, in
    order, the rows made from the retained positions, and each records an
    area strictly greater than the threshold. *)
Theorem filter_discards_exactly_small_areas gdf thr s tol ic wc :
  ∃ kept : list nat,
    StronglySorted lt kept
    ∧ (∀ i src, rows gdf !! i = Some src →
         (i ∈ kept ↔ thr < metric_area (crs gdf) wc src)
         ∧ (i ∉ kept ↔ metric_area (crs gdf) wc src ≤ thr))
    ∧ Forall2
        (λ i r, ∃ src,
           rows gdf !! i = Some src
           ∧ thr < metric_area (crs gdf) wc src
           ∧ r = cleaned_row (crs gdf) wc ic s tol src)
        kept (rows (filter_and_smooth_geometries gdf thr s tol ic wc)).
Proof.
  destruct (filter_positions (λ r, thr < metric_area (crs gdf) wc r)
              (rows gdf)) as (kept & Hsort & Hmem & Hall).
  exists kept. split_and!; [done| |].
  - intros i src Hi.
    assert (Hin : i ∈ kept ↔ thr < metric_area (crs gdf) wc src).
    { rewrite Hmem. split.
      - intros (x & Hx & HP). by simplify_eq.
      - intros HP. by exists src. }
    split; [done|]. rewrite Hin. symmetry. apply Qcle_ngt.
  - rewrite filter_and_smooth_rows. apply Forall2_fmap_r.
    assert (Hkept : Forall (λ i, ∃ x, rows gdf !! i = Some x
                            ∧ thr < metric_area (crs gdf) wc x) kept).
    { apply Forall_forall. intros i Hi. by apply Hmem. }
    clear Hmem Hsort. induction Hall as [|i x kept' xs Hi _ IH];
      [constructor|].
    apply Forall_cons in Hkept as [(y & Hy & HP) Hkept].
    constructor; [|by apply IH].
    exists x. split_and!; [done| |done]. by simplify_eq.
Qed.

(** C8.  The output of the generic filter never has more rows than its
    input. *)
Theorem filter_never_adds_rows gdf thr s tol ic wc :
  (length (rows (filter_and_smooth_geometries gdf thr s tol ic wc))
   ≤ length (rows gdf))%nat.
Proof.
  rewrite filter_and_smooth_rows, length_fmap. apply length_filter.
Qed.

(** C10, amended.  The generic filter leaves the column labels as they are,
    except that it appends "area_m2" when the input has no column of that
    name; when the input has one, no column is added and that column is
    overwritten.  In every output row the cell "area_m2" holds the area of
    the source geometry in the working frame before smoothing, and the
    cells of all other columns are those of the source row. *)
Theorem filter_adds_area_column gdf thr s tol ic wc :
  let out := filter_and_smooth_geometries gdf thr s tol ic wc in
  ("area_m2" ∉ columns gdf → columns out = (columns gdf ++ ["area_m2"])%list)
  ∧ ("area_m2" ∈ columns gdf → columns out = columns gdf)
  ∧ Forall2
      (λ src r,
         cells r !! "area_m2" = Some (VNum (metric_area (crs gdf) wc src))
         ∧ ∀ c, c ≠ "area_m2" → cells r !! c = cells src !! c)
      (filter (λ r, thr < metric_area (crs gdf) wc r) (rows gdf))
      (rows out).
Proof.
  intros out. subst out. rewrite filter_and_smooth_columns.
  unfold columns_set. split_and!.
  - intros Hc. by rewrite decide_False.
  - intros Hc. by rewrite decide_True.
  - rewrite filter_and_smooth_rows. apply Forall2_fmap_r, Forall2_same_length_lookup_2; [done|].
    intros i src r Hsrc Hr. simplify_eq. cbn. split.
    + apply lookup_insert_eq.
    + intros c Hc. by rewrite lookup_insert_ne.
Qed.

End GenericFilter.

Section SecondRun.
Context `{G : Geometry}.
Implicit Types (gdf : GeoDataFrame) (thr s tol : Qc) (ic wc : string).

Lemma filter_all_length {A} (P : A → Prop) `{!∀ x, Decision (P x)}
    (l : list A) :
  length (filter P l) = length l → Forall P l.
Proof.
  induction l as [|x l IH]; [constructor|].
  rewrite filter_cons. destruct (decide (P x)) as [HP|HP]; cbn.
  - intros [= Hlen]. constructor; auto.
  - intros Hlen. pose proof (length_filter P l). lia.
Qed.

Lemma filter_all {A} (P : A → Prop) `{!∀ x, Decision (P x)} (l : list A) :
  Forall P l → filter P l = l.
Proof.
  induction 1 as [|x l HP _ IH]; [done|].
  rewrite filter_cons, decide_True by done. by f_equal.
Qed.

Lemma fmap_fixed {A} (f : A → A) (l : list A) :
  f <$> l = l ↔ Forall (λ x, f x = x) l.
Proof.
  induction l as [|x l IH]; cbn.
  - split; [constructor|done].
  - rewrite Forall_cons, <-IH. split.
    + by intros [= ? ?].
    + by intros [-> ->].
Qed.

Lemma columns_set_idemp (c : string) (cols : list string) :
  columns_set c (columns_set c cols) = columns_set c cols.
Proof.
  unfold columns_set. destruct (decide (c ∈ cols)) as [Hc|Hc].
  - by rewrite decide_True.
  - rewrite decide_True; [done|].
    apply elem_of_app. right. by apply list_elem_of_singleton.
Qed.

Lemma frame_eq (a b : GeoDataFrame) :
  crs a = crs b → columns a = columns b → rows a = rows b → a = b.
Proof. destruct a, b. cbn. congruence. Qed.

Lemma cleaned_row_fixed ic wc s tol (r : row) :
  cleaned_row ic wc ic s tol r = r
  ↔ cells r !! "area_m2" = Some (VNum (metric_area ic wc r))
    ∧ cleaned_geometry ic wc ic s tol (geometry r) = geometry r.
Proof.
  destruct r as [g m]. unfold cleaned_row. cbn. split.
  - intros [= Hg Hm]. split; [|done].
    rewrite <-Hm at 1. apply lookup_insert_eq.
  - intros [Hm Hg]. rewrite Hg. f_equal. by apply insert_id.
Qed.

(** C4, amended.  A second run of the generic filter with the same
    parameters on its own output returns that output unchanged exactly when
    every row of the output is settled: its area in the working frame is
    the recorded one and exceeds the threshold, and the cleaning chain
    reproduces its geometry. *)
Theorem second_run_unchanged_iff_settled gdf thr s tol ic wc :
  let out := filter_and_smooth_geometries gdf thr s tol ic wc in
  filter_and_smooth_geometries out thr s tol ic wc = out
  ↔ Forall (settled wc ic thr s tol) (rows out).
Proof.
  intros out.
  assert (Hrows : rows (filter_and_smooth_geometries out thr s tol ic wc)
                  = cleaned_row ic wc ic s tol
                      <$> filter (λ r, thr < metric_area ic wc r) (rows out)).
  { by rewrite filter_and_smooth_rows. }
  assert (Hcols : columns (filter_and_smooth_geometries out thr s tol ic wc)
                  = columns out).
  { rewrite filter_and_smooth_columns. unfold out.
    rewrite filter_and_smooth_columns. apply columns_set_idemp. }
  split.
  - intros Heq. rewrite Heq in Hrows.
    assert (Hall : Forall (λ r, thr < metric_area ic wc r) (rows out)).
    { apply (filter_all_length (λ r, thr < metric_area ic wc r)).
      apply (f_equal length) in Hrows. by rewrite length_fmap in Hrows. }
    rewrite filter_all in Hrows by done. symmetry in Hrows.
    apply fmap_fixed in Hrows.
    apply Forall_forall. intros r Hr.
    rewrite Forall_forall in Hall, Hrows.
    specialize (Hall r Hr). specialize (Hrows r Hr).
    apply cleaned_row_fixed in Hrows as [? ?]. by split_and!.
  - intros Hset.
    assert (Hall : Forall (λ r, thr < metric_area ic wc r) (rows out)).
    { eapply Forall_impl; [exact Hset|]. by intros r (? & _). }
    rewrite filter_all in Hrows by done.
    assert (Hfix : cleaned_row ic wc ic s tol <$> rows out = rows out).
    { apply fmap_fixed. eapply Forall_impl; [exact Hset|].
      intros r (_ & ? & ?). by apply cleaned_row_fixed. }
    rewrite Hfix in Hrows.
    apply frame_eq; [|done..].
    unfold out. by rewrite !filter_and_smooth_crs.
Qed.

End SecondRun.

(** * The category-aware merge: [stylize_natural_geometries] *)

Section Stylize.
Context `{G : Geometry}.
Implicit Types (gdf : GeoDataFrame) (thr prox s tol : Qc) (ic wc : string).

Lemma stylize_group_not_other prox s tol (acc : list styled)
    (cg : string * GeoDataFrame) :
  Forall (λ x, styled_category x ≠ "other") acc →
  Forall (λ x, styled_category x ≠ "other") (stylize_group prox s tol acc cg).
Proof.
  intros Hacc. destruct cg as [cat group]. unfold stylize_group.
  destruct (decide (cat ≠ "other")) as [Hcat|]; [|done].
  destruct (multi_geoms _) as [parts|].
  - apply Forall_app. split; [done|]. by apply Forall_fmap, Forall_true.
  - apply Forall_app. split; [done|]. by repeat constructor.
Qed.

Lemma final_geoms_not_other prox s tol (groups : list (string * GeoDataFrame))
    (acc : list styled) :
  Forall (λ x, styled_category x ≠ "other") acc →
  Forall (λ x, styled_category x ≠ "other")
         (foldl (stylize_group prox s tol) acc groups).
Proof.
  revert acc. induction groups as [|cg groups IH]; intros acc Hacc; [done|].
  cbn. by apply IH, stylize_group_not_other.
Qed.

Lemma final_geoms_only_other prox s tol (groups : list (string * GeoDataFrame))
    (acc : list styled) :
  Forall (λ cg, cg.1 = "other") groups →
  foldl (stylize_group prox s tol) acc groups = acc.
Proof.
  induction 1 as [|[cat group] groups Hcat _ IH]; [done|].
  cbn in *. subst cat. by rewrite decide_False by (by intros []).
Qed.

Lemma elem_of_insert_key (k k' : string) (ks : list string) :
  k ∈ insert_key k' ks → k = k' ∨ k ∈ ks.
Proof.
  induction ks as [|k0 ks IH]; cbn.
  - intros ->%list_elem_of_singleton. by left.
  - destruct (String.compare k' k0).
    + by right.
    + intros [->|?]%elem_of_cons; [by left|by right].
    + intros [->|[->|?]%IH]%elem_of_cons.
      * right. by left.
      * by left.
      * right. by right.
Qed.

Lemma elem_of_group_keys (k : string) (rs : list row) :
  k ∈ group_keys rs → ∃ r, r ∈ rs ∧ category_of r = Some k.
Proof.
  induction rs as [|r rs IH]; cbn.
  - by intros ?%elem_of_nil.
  - destruct (category_of r) as [c|] eqn:Hc; cbn.
    + intros [->|(r' & ? & ?)%IH]%elem_of_insert_key.
      * exists r. split; [by left|done].
      * exists r'. split; [by right|done].
    + intros (r' & ? & ?)%IH. exists r'. split; [by right|done].
Qed.

Lemma GeoDataFrame_of_records_ok (recs : list styled) (c : string)
    (out : GeoDataFrame) :
  GeoDataFrame_of_records recs c = Ok out →
  rows out = (λ x, {| geometry := styled_geometry x;
                      cells := {[ "category" := VStr (styled_category x) ]} |})
               <$> recs
  ∧ crs out = c ∧ columns out = ["category"].
Proof. destruct recs; [done|]. by intros [= <-]. Qed.

(** Where the merge returns a frame, the frame is expressed in [input_crs]
    and has the single attribute column "category". *)
Lemma stylize_result_frame gdf thr prox s tol ic wc (out : GeoDataFrame) :
  stylize_natural_geometries gdf thr prox s tol ic wc = Ok out →
  crs out = ic ∧ columns out = ["category"].
Proof.
  unfold stylize_natural_geometries.
  destruct (groupby_category _) as [groups|]; [cbn|done].
  destruct (foldl _ _ _) as [|x final]; [done|].
  cbn. intros [= <-]. done.
Qed.

(** C2.  Whenever the category-aware merge returns a frame, every row of it
    carries a category label, and that label is not "other". *)
Theorem stylize_never_emits_other gdf thr prox s tol ic wc
    (out : GeoDataFrame) :
  stylize_natural_geometries gdf thr prox s tol ic wc = Ok out →
  Forall (λ r, ∃ c, cells r !! "category" = Some (VStr c) ∧ c ≠ "other")
         (rows out).
Proof.
  unfold stylize_natural_geometries.
  destruct (groupby_category _) as [groups|]; [cbn [bind]|done].
  pose proof (final_geoms_not_other prox s tol groups [] (Forall_nil_2 _))
    as Hfinal.
  destruct (GeoDataFrame_of_records _ wc) as [res|] eqn:Hres; [|done].
  apply GeoDataFrame_of_records_ok in Hres as (Hrows & _ & _).
  cbn [bind]. intros [= <-]. cbn [rows to_crs]. rewrite Hrows.
  rewrite <-list_fmap_compose. apply Forall_fmap.
  eapply Forall_impl; [exact Hfinal|].
  intros x' Hx'. cbn. exists (styled_category x').
  by rewrite lookup_singleton_eq.
Qed.

(** C3, the failing path.  When the input has a category column and no row
    above the area threshold has a label other than "other", the list of
    records is empty and building the result frame raises: the merge
    returns no frame at all. *)
Theorem stylize_raises_on_empty_result gdf thr prox s tol ic wc :
  "category" ∈ columns gdf →
  Forall (λ r, thr < metric_area (crs gdf) wc r →
               ∀ c, category_of r = Some c → c = "other") (rows gdf) →
  stylize_natural_geometries gdf thr prox s tol ic wc
  = Raise (ValueError "Assigning CRS to a GeoDataFrame without a geometry column is not supported").
Proof.
  intros Hcol Hother. unfold stylize_natural_geometries, groupby_category.
  cbn [columns getitem_mask setitem_num to_crs].
  rewrite decide_True; last first.
  { unfold columns_set. case_decide; [done|].
    apply elem_of_app. by left. }
  cbn [bind]. rewrite final_geoms_only_other; [done|].
  apply Forall_fmap, Forall_forall. intros k Hk. cbn.
  apply elem_of_group_keys in Hk as (r & Hr & Hcat).
  pose proof (area_filter_rows gdf thr wc) as Hrows. cbv zeta in Hrows.
  cbn [rows] in Hr. rewrite Hrows in Hr.
  apply list_elem_of_fmap in Hr as (src & -> & Hsrc).
  apply list_elem_of_filter in Hsrc as [Harea Hsrc].
  rewrite Forall_forall in Hother.
  apply (Hother src Hsrc Harea).
  revert Hcat. unfold category_of. cbn.
  by rewrite lookup_insert_ne.
Qed.

End Stylize.

(** * The category classifier *)

Section ClassifyFacts.
Implicit Types (r : gmap string value).

(** The tag lists the classifier looks up. *)
Example forest_natural : tags_of forest_tags "natural" = ["wood"; "tundra"].
Proof. reflexivity. Qed.

Example forest_landuse : tags_of forest_tags "landuse" = ["forest"].
Proof. reflexivity. Qed.

Example grass_natural : tags_of grass_tags "natural" = ["heath"].
Proof. reflexivity. Qed.

Lemma tag_in_true (v : option value) (tags : list string) :
  tag_in v tags = true ↔ ∃ t, v = Some (VStr t) ∧ t ∈ tags.
Proof.
  destruct v as [[t| |]|]; cbn.
  - rewrite bool_decide_eq_true. split; [by exists t|].
    by intros (? & [= <-] & ?).
  - split; [done|by intros (? & ? & _)].
  - split; [done|by intros (? & ? & _)].
  - split; [done|by intros (? & ? & _)].
Qed.

(** Case analysis on membership in a list given by its elements. *)
Ltac elem_cases H :=
  repeat (apply elem_of_cons in H as [H|H]; [by subst|]);
  by apply elem_of_nil in H.

Lemma classify_unfold r :
  classify r =
    if tag_in (r !! "natural") ["wood"; "tundra"] then "forest"
    else if tag_in (r !! "landuse") ["forest"] then "forest"
    else if tag_in (r !! "natural") ["heath"] then "grass"
    else "other".
Proof. reflexivity. Qed.

(** C9.  The classifier answers "grass" exactly for the rows whose natural
    tag is "heath" (and whose landuse tag is not "forest"); a row with no
    forest tag and a natural tag other than "heath" is classified "other"
    whatever its landuse and landcover cells hold, the grass values of
    these two tags included; and the answer does not depend on the landuse
    and landcover entries of the grass tag set. *)
Theorem classify_grass_only_for_heath :
  (∀ r, classify r = "grass"
        ↔ r !! "natural" = Some (VStr "heath")
          ∧ r !! "landuse" ≠ Some (VStr "forest"))
  ∧ (∀ r,
       r !! "natural" ≠ Some (VStr "wood") →
       r !! "natural" ≠ Some (VStr "tundra") →
       r !! "landuse" ≠ Some (VStr "forest") →
       r !! "natural" ≠ Some (VStr "heath") →
       classify r = "other")
  ∧ (∀ grass grass' forest r,
       grass !! "natural" = grass' !! "natural" →
       classify_with grass forest r = classify_with grass' forest r).
Proof.
  assert (Hnat : ∀ r tags, tag_in (r !! "natural") tags = false
                   ↔ ∀ t, t ∈ tags → r !! "natural" ≠ Some (VStr t)).
  { intros r tags. rewrite <-not_true_iff_false, tag_in_true. split.
    - intros Hn t Ht Heq. apply Hn. by exists t.
    - intros Hn (t & Heq & Ht). by apply (Hn t). }
  split_and!.
  - intros r. rewrite classify_unfold.
    destruct (tag_in (r !! "natural") ["wood"; "tundra"]) eqn:Hwood.
    { split; [done|]. intros [Hheath _].
      apply tag_in_true in Hwood as (t & Ht & Hin).
      rewrite Hheath in Ht. simplify_eq. elem_cases Hin. }
    destruct (tag_in (r !! "landuse") ["forest"]) eqn:Hforest.
    { split; [done|]. intros [_ Hlu].
      apply tag_in_true in Hforest as (t & Ht & Hin).
      apply list_elem_of_singleton in Hin as ->. done. }
    destruct (tag_in (r !! "natural") ["heath"]) eqn:Hheath.
    + split; [intros _|done].
      apply tag_in_true in Hheath as (t & Ht & Hin).
      apply list_elem_of_singleton in Hin as ->. split; [done|].
      intros Hlu. apply not_true_iff_false in Hforest. apply Hforest.
      apply tag_in_true. exists "forest". split; [done|]. by left.
    + split; [done|]. intros [Hh _].
      apply not_true_iff_false in Hheath. destruct Hheath.
      apply tag_in_true. exists "heath". split; [done|]. by left.
  - intros r Hwood Htundra Hforest Hheath. rewrite classify_unfold.
    assert (tag_in (r !! "natural") ["wood"; "tundra"] = false) as ->.
    { apply Hnat. intros t Ht. elem_cases Ht. }
    assert (tag_in (r !! "landuse") ["forest"] = false) as ->.
    { apply not_true_iff_false. rewrite tag_in_true.
      intros (t & ? & ->%list_elem_of_singleton). done. }
    assert (tag_in (r !! "natural") ["heath"] = false) as ->; [|done].
    apply Hnat. intros t ->%list_elem_of_singleton. done.
  - intros grass grass' forest r Heq. unfold classify_with, tags_of.
    by rewrite Heq.
Qed.

End ClassifyFacts.

(** * The route extractor *)

Section ExtractFacts.
Variable float : str → option spec_float.

(** The extractor returns as soon as every placemark can be read and there
    is at least one. *)
Lemma extractor_returns (doc : list placemark) (segment_slice : Z * Z)
    (table : list route_row) :
  traverse (read_placemark float) doc = Ok table → table ≠ [] →
  ∃ segments_df points_df,
    extract_kml_segments float doc segment_slice
    = Ok (segments_df, points_df).
Proof.
  intros Htable Hne. unfold extract_kml_segments. rewrite Htable.
  destruct table as [|r table]; [done|]. cbn [bind]. eauto.
Qed.

(** C6, amended.  When the extractor returns, the points table holds
    exactly the placemarks with one coordinate, in document order, and the
    segments table holds the placemarks with more than one coordinate
    whose position among them falls in the slice [segment_slice]; every
    row of the segments table has more than one coordinate, so a placemark
    with a single coordinate is never in it. *)
Theorem extractor_splits_points_and_sliced_segments
    (doc : list placemark) (segment_slice : Z * Z)
    (segments_df points_df : list route_row) :
  extract_kml_segments float doc segment_slice
  = Ok (segments_df, points_df) →
  ∃ table : list route_row,
    traverse (read_placemark float) doc = Ok table
    ∧ points_df = filter (λ r, length (Coordinates r) = 1%nat) table
    ∧ segments_df
      = iloc_slice (filter (λ r, (1 < length (Coordinates r))%nat) table)
                   segment_slice.1 segment_slice.2
    ∧ Forall (λ r, (1 < length (Coordinates r))%nat) segments_df
    ∧ (∀ r, r ∈ table → length (Coordinates r) = 1%nat →
            r ∈ points_df ∧ r ∉ segments_df).
Proof.
  unfold extract_kml_segments.
  destruct (traverse _ doc) as [table|]; [cbn [bind]|done].
  destruct table as [|r0 table]; [done|]. intros [= <- <-].
  set (tbl := r0 :: table).
  assert (Hseg : Forall (λ r, (1 < length (Coordinates r))%nat)
            (iloc_slice (filter (λ r, (1 < length (Coordinates r))%nat) tbl)
                        segment_slice.1 segment_slice.2)).
  { unfold iloc_slice. apply Forall_take, Forall_drop.
    apply Forall_forall. by intros r [? _]%list_elem_of_filter. }
  exists tbl. split_and!; [done..|].
  intros r Hr Hlen. split.
  - by apply list_elem_of_filter.
  - intros Hin. rewrite Forall_forall in Hseg. specialize (Hseg r Hin). lia.
Qed.

End ExtractFacts.

(** * The Coordinates cell read back *)

Section CellFacts.
Implicit Types (x : spec_float) (t items : list spec_float)
  (l acc : list (list spec_float)) (rest : list token).

Lemma read_number acc items x rest :
  is_finite x = true →
  foldl read_token (TupleItem acc items) (repr_float x ++ rest)
  = foldl read_token
      (TupleSep acc (items ++ [x]) (bool_decide (items ≠ []))) rest.
Proof. by destruct x as [[]|[]| |[] m e]. Qed.

Lemma read_items t : ∀ acc items rest,
  t ≠ [] → Forall (λ x, is_finite x = true) t →
  foldl read_token (TupleItem acc items)
        (join_comma (repr_float <$> t) ++ rest)
  = foldl read_token
      (TupleSep acc (items ++ t)
                (bool_decide (1 < length (items ++ t))%nat)) rest.
Proof.
  induction t as [|x [|y t] IH]; intros acc items rest Hne Hfin; [done|..].
  - apply Forall_cons in Hfin as [Hx _]. cbn [fmap list_fmap join_comma].
    rewrite read_number by done. do 2 f_equal.
    apply bool_decide_ext. rewrite length_app.
    destruct items; cbn; (split; [intros ?|intros ?]); done || lia.
  - apply Forall_cons in Hfin as [Hx Hfin].
    change (join_comma (repr_float <$> x :: y :: t))
      with (repr_float x ++ COMMA :: join_comma (repr_float <$> y :: t))%list.
    rewrite <-app_assoc, read_number by done.
    cbn [app foldl read_token]. rewrite IH by done.
    by rewrite <-app_assoc.
Qed.

Lemma read_tuple t acc rest :
  Forall (λ x, is_finite x = true) t →
  foldl read_token (ListItem acc) (repr_tuple t ++ rest)
  = foldl read_token (ListSep (acc ++ [t])) rest.
Proof.
  intros Hfin. destruct t as [|x [|y t]].
  - done.
  - apply Forall_cons in Hfin as [Hx _]. unfold repr_tuple.
    cbn [app foldl read_token]. rewrite <-app_assoc.
    by rewrite read_number.
  - unfold repr_tuple. cbn [app foldl read_token]. rewrite <-app_assoc.
    by rewrite read_items.
Qed.

Lemma read_tuples l : ∀ acc,
  l ≠ [] → Forall (Forall (λ x, is_finite x = true)) l →
  foldl read_token (ListItem acc)
        (join_comma (repr_tuple <$> l) ++ [RBRACK])
  = Finished (acc ++ l).
Proof.
  induction l as [|t [|t' l] IH]; intros acc Hne Hfin; [done|..].
  - apply Forall_cons in Hfin as [Ht _]. cbn [fmap list_fmap join_comma].
    by rewrite read_tuple.
  - apply Forall_cons in Hfin as [Ht Hfin].
    change (join_comma (repr_tuple <$> t :: t' :: l))
      with (repr_tuple t ++ COMMA :: join_comma (repr_tuple <$> t' :: l))%list.
    rewrite <-app_assoc, read_tuple by done.
    cbn [app foldl read_token]. rewrite IH by done.
    by rewrite <-app_assoc.
Qed.

(** C5, amended.  For every list of coordinate tuples whose components are
    all finite numbers, reading the text of the Coordinates cell back
    yields the list itself; and the point made from a row of the points
    table has the longitude and latitude of its first tuple. *)
Theorem coordinates_cell_round_trip l :
  Forall (Forall (λ x, is_finite x = true)) l →
  literal_eval (coordinates_cell l) = Ok l
  ∧ ∀ lon lat t l', l = (lon :: lat :: t) :: l' →
      point_of_cell (coordinates_cell l) = Ok (lon, lat).
Proof.
  intros Hfin.
  assert (Heval : literal_eval (coordinates_cell l) = Ok l).
  { unfold literal_eval, coordinates_cell. destruct l as [|t l]; [done|].
    by rewrite read_tuples. }
  split; [done|]. intros lon lat t l' ->.
  unfold point_of_cell. by rewrite Heval.
Qed.

End CellFacts.

(** * The statements at concrete inputs *)

Section Concrete.
Import BoxGeometry Examples.

(** Equality of evaluated data that holds canonical rationals. *)
Ltac qc_equal :=
  repeat first [apply Qc_is_canon; reflexivity | progress f_equal].

(** The spec's scenario for the generic filter: squares of 5 m by 5 m and a
    threshold of 100 square metres leave nothing. *)
Example small_squares_are_dropped :
  rows (filter_and_smooth_geometries
          {| crs := wgs84; columns := [];
             rows := [patch 5 5 ∅; patch 5 5 ∅] |}
          (Qc_of_Z 100) (Qc_of_Z 10) (Qc_of_Z 3) wgs84 web_mercator) = [].
Proof. reflexivity. Qed.

(** A forest patch and a grass patch give one row each, the meadow none. *)
Example nature_categories :
  (λ out, getitem out "category")
    <$> match stylize_natural_geometries_default nature with
        | Ok out => Some out
        | Raise _ => None
        end
  = Some [VStr "forest"; VStr "grass"].
Proof. vm_compute. reflexivity. Qed.

(** C4: a counterexample to unconditional idempotence.  With a smoothing
    strength of -10 m the ditch is retained by the first run with an empty
    geometry; the second run measures an area of zero and drops the row. *)
Lemma second_run_drops_collapsed_row :
  let once := filter_and_smooth_geometries ditch (Qc_of_Z 10000)
                (Qc_of_Z (-10)) (Qc_of_Z 3) wgs84 web_mercator in
  let twice := filter_and_smooth_geometries once (Qc_of_Z 10000)
                 (Qc_of_Z (-10)) (Qc_of_Z 3) wgs84 web_mercator in
  geometry <$> rows once = [Empty]
  ∧ getitem once "area_m2" = [VNum (Qc_of_Z 15000)]
  ∧ rows twice = []
  ∧ twice ≠ once.
Proof.
  split_and!.
  - reflexivity.
  - vm_compute. qc_equal.
  - reflexivity.
  - intros Heq. apply (f_equal (λ gdf, length (rows gdf))) in Heq.
    vm_compute in Heq. discriminate Heq.
Qed.

(** In the kernel of boxes, a smoothing strength of -10 m leaves the ditch
    as a row with an empty geometry. *)
Example ditch_geometry_is_empty :
  geometry <$> rows (filter_and_smooth_geometries lakes (Qc_of_Z 10000)
                       (Qc_of_Z (-10)) (Qc_of_Z 3) wgs84 web_mercator)
  = [Empty; Box 0 0 (metres 500) (metres 1000)].
Proof.
  vm_compute. qc_equal.
Qed.

(** C10: a counterexample to "one extra column".  The input already has a
    column "area_m2": the output has the same columns, none extra, and the
    input's cell of that column is not preserved. *)
Lemma existing_area_column_is_overwritten :
  let out := filter_and_smooth_geometries_default measured_loch in
  columns out = columns measured_loch
  ∧ columns out ≠ (columns measured_loch ++ ["area_m2"])%list
  ∧ getitem measured_loch "area_m2" = [VNum (Qc_of_Z 5)]
  ∧ getitem out "area_m2" = [VNum (Qc_of_Z 500000)].
Proof.
  split_and!; [reflexivity|discriminate|reflexivity|].
  vm_compute. qc_equal.
Qed.

(** C2 at the land cover example: the merge returns a frame with rows, and
    none of them is labelled "other". *)
Lemma nature_has_no_other_row :
  ∃ out : @GeoDataFrame box_geometry,
    stylize_natural_geometries_default nature = Ok out
    ∧ length (rows out) = 2%nat
    ∧ Forall (λ r, ∃ c, cells r !! "category" = Some (VStr c) ∧ c ≠ "other")
             (rows out).
Proof.
  destruct (stylize_natural_geometries_default nature) as [out|e] eqn:Hout.
  - exists out. split_and!; [reflexivity| |].
    + apply (f_equal (λ res, match res with
                             | Ok o => length (rows o)
                             | Raise _ => 0%nat
                             end)) in Hout.
      rewrite <-Hout. vm_compute. reflexivity.
    + exact (stylize_never_emits_other nature (Qc_of_Z 170000) (Qc_of_Z 10)
               (Qc_of_Z 5) (Qc_of_Z 2) "EPSG:4326" "EPSG:3857" out Hout).
  - apply (f_equal (λ res, match res with
                           | Ok _ => true
                           | Raise _ => false
                           end)) in Hout.
    vm_compute in Hout. discriminate Hout.
Defined.

(** C3 at the farmland example: every row is labelled "other", and the
    merge raises instead of returning an empty frame. *)
Lemma farmland_raises :
  "category" ∈ columns farmland
  ∧ Forall (λ r, Qc_of_Z 170000 < metric_area (crs farmland) web_mercator r →
                 ∀ c, category_of r = Some c → c = "other") (rows farmland)
  ∧ stylize_natural_geometries_default farmland
    = Raise (ValueError "Assigning CRS to a GeoDataFrame without a geometry column is not supported").
Proof.
  assert (Hcol : "category" ∈ columns farmland).
  { apply elem_of_cons. right. apply elem_of_cons. by left. }
  assert (Hrows : Forall
            (λ r, Qc_of_Z 170000 < metric_area (crs farmland) web_mercator r →
                  ∀ c, category_of r = Some c → c = "other") (rows farmland)).
  { repeat constructor; intros _ c; vm_compute; by intros [= <-]. }
  split_and!; [exact Hcol|exact Hrows|].
  exact (stylize_raises_on_empty_result farmland (Qc_of_Z 170000) (Qc_of_Z 10)
           (Qc_of_Z 5) (Qc_of_Z 2) wgs84 web_mercator Hcol Hrows).
Defined.

(** The same happens on an empty collection. *)
Example empty_collection_raises :
  stylize_natural_geometries_default
    {| crs := wgs84; columns := ["category"]; rows := [] |}
  = Raise (ValueError "Assigning CRS to a GeoDataFrame without a geometry column is not supported").
Proof. reflexivity. Qed.

(** C6: a counterexample to "every path is in the segments table".  The
    only placemark of the document has two coordinates, and with the default
    slice it is in neither table. *)
Lemma single_path_is_sliced_away :
  extract_kml_segments float_of_simple one_path_document default_segment_slice
  = Ok ([], [])
  ∧ ∃ r, traverse (read_placemark float_of_simple) one_path_document = Ok [r]
         ∧ length (Coordinates r) = 2%nat.
Proof. split; [reflexivity|]. eexists. split; reflexivity. Qed.

(** C6 at the route document: two points, and of the five paths the two at
    positions 3 and 4. *)
Lemma route_document_tables :
  ∃ segments_df points_df table,
    extract_kml_segments float_of_simple route_document default_segment_slice
    = Ok (segments_df, points_df)
    ∧ Name <$> segments_df = [Some "Stage 4"; Some "Stage 5"]
    ∧ Name <$> points_df = [Some "Milngavie"; Some "Fort William"]
    ∧ traverse (read_placemark float_of_simple) route_document = Ok table
    ∧ points_df = filter (λ r, length (Coordinates r) = 1%nat) table
    ∧ segments_df
      = iloc_slice (filter (λ r, (1 < length (Coordinates r))%nat) table)
                   default_segment_slice.1 default_segment_slice.2
    ∧ Forall (λ r, (1 < length (Coordinates r))%nat) segments_df
    ∧ (∀ r, r ∈ table → length (Coordinates r) = 1%nat →
            r ∈ points_df ∧ r ∉ segments_df).
Proof.
  destruct (extract_kml_segments float_of_simple route_document
              default_segment_slice) as [[segments_df points_df]|e] eqn:Hret.
  - destruct (extractor_splits_points_and_sliced_segments float_of_simple
                route_document default_segment_slice segments_df points_df
                Hret) as (table & Htable & Hrest).
    exists segments_df, points_df, table.
    vm_compute in Hret. injection Hret as <- <-.
    split_and!; [reflexivity|reflexivity|reflexivity|exact Htable|apply Hrest..].
  - vm_compute in Hret. discriminate Hret.
Defined.

(** C5: a counterexample to the round trip for every list.  The coordinate
    [inf] is accepted by the extractor, written as the identifier [inf], and
    refused when the cell is read back. *)
Lemma infinite_coordinate_is_not_read_back :
  extract_kml_segments float_of_simple summit_document default_segment_slice
  = Ok ([], [ {| Name := Some "Summit";
                 Coordinates := [[S754_infinity false; S754_zero false]] |} ])
  ∧ coordinates_cell [[S754_infinity false; S754_zero false]]
    = [LBRACK; LPAR; NAME "inf"; COMMA; NUMBER (S754_zero false); RPAR; RBRACK]
  ∧ literal_eval (coordinates_cell [[S754_infinity false; S754_zero false]])
    = Raise (ValueError "malformed node or string")
  ∧ literal_eval (coordinates_cell [[S754_infinity false; S754_zero false]])
    ≠ Ok [[S754_infinity false; S754_zero false]].
Proof. split_and!; [reflexivity..|discriminate]. Qed.

(** C5 at the coordinates of the two towns. *)
Lemma town_coordinates_round_trip :
  Forall (Forall (λ x, is_finite x = true)) town_coordinates
  ∧ literal_eval (coordinates_cell town_coordinates) = Ok town_coordinates
  ∧ ∀ lon lat t l', town_coordinates = (lon :: lat :: t) :: l' →
      point_of_cell (coordinates_cell town_coordinates) = Ok (lon, lat).
Proof.
  assert (Hfin : Forall (Forall (λ x, is_finite x = true)) town_coordinates).
  { repeat constructor. }
  split; [exact Hfin|].
  exact (coordinates_cell_round_trip town_coordinates Hfin).
Defined.

End Concrete.

(** * Further properties of the category-aware merge *)

Section MergeFacts.
Context `{G : Geometry}.
Implicit Types (gdf : GeoDataFrame) (thr prox s tol : Qc) (ic wc : string).

Lemma category_of_measured (c wc : string) (r : row) :
  category_of (measured_row c wc r) = category_of r.
Proof. unfold category_of. cbn. by rewrite lookup_insert_ne. Qed.

Lemma group_keys_measured (c wc : string) (rs : list row) :
  group_keys (measured_row c wc <$> rs) = group_keys rs.
Proof.
  unfold group_keys. induction rs as [|r rs IH]; [done|].
  cbn [fmap list_fmap foldr]. by rewrite category_of_measured, IH.
Qed.

Lemma labelled_measured (c wc k : string) (rs : list row) :
  filter (λ r, category_of r = Some k) (measured_row c wc <$> rs)
  = measured_row c wc <$> labelled k rs.
Proof.
  unfold labelled. induction rs as [|r rs IH]; [done|].
  cbn [fmap list_fmap]. rewrite !filter_cons, category_of_measured.
  case_decide; [|done]. cbn. by f_equal.
Qed.

Lemma stylize_group_emits (src wc : string) prox s tol (rs : list row)
    (acc : list styled) (k : string) (cols : list string) :
  k ≠ "other" →
  stylize_group prox s tol acc
    (k, {| crs := wc; columns := cols;
           rows := filter (λ r, category_of r = Some k)
                          (measured_row src wc <$> rs) |})
  = (acc ++ emitted src wc prox s tol rs k)%list.
Proof.
  intros Hk. unfold stylize_group. rewrite decide_True by done.
  rewrite labelled_measured.
  unfold emitted, polygons_of, merged_shape, series_buffer, geometry_series.
  cbn [rows]. rewrite <-!list_fmap_compose.
  assert (Heq : ((λ g, buffer g prox) ∘ geometry ∘ measured_row src wc)
                <$> labelled k rs
                = (λ r, buffer (reproject src wc (geometry r)) prox)
                    <$> labelled k rs) by done.
  rewrite Heq. by destruct (multi_geoms _).
Qed.

Lemma foldl_stylize_groups (src wc : string) prox s tol (rs : list row)
    (cols : list string) (keys : list string) : ∀ acc : list styled,
  foldl (stylize_group prox s tol) acc
    ((λ k, (k, {| crs := wc; columns := cols;
                  rows := filter (λ r, category_of r = Some k)
                                 (measured_row src wc <$> rs) |}))
       <$> keys)
  = (acc ++ mjoin (emitted src wc prox s tol rs
                     <$> filter (λ k, k ≠ "other") keys))%list.
Proof.
  induction keys as [|k keys IH]; intros acc.
  { cbn. by rewrite app_nil_r. }
  cbn [fmap list_fmap foldl]. rewrite filter_cons.
  destruct (decide (k ≠ "other")) as [Hk|Hk].
  - rewrite stylize_group_emits by done. rewrite IH.
    cbn [fmap list_fmap mjoin list_join]. by rewrite <-app_assoc.
  - apply dec_stable in Hk. subst k. unfold stylize_group at 2.
    rewrite decide_False by (by intros []). apply IH.
Qed.

(** The merge in closed form, for a frame with a category column. *)
Lemma stylize_closed_form gdf thr prox s tol ic wc :
  "category" ∈ columns gdf →
  stylize_natural_geometries gdf thr prox s tol ic wc
  = bind (GeoDataFrame_of_records
            (merged_records (crs gdf) wc prox s tol (retained gdf thr wc)) wc)
         (λ gdf_result, Ok (to_crs gdf_result ic)).
Proof.
  intros Hcol. unfold stylize_natural_geometries, groupby_category.
  pose proof (area_filter_rows gdf thr wc) as Hrows. cbv zeta in Hrows.
  cbn [columns getitem_mask setitem_num to_crs crs].
  rewrite decide_True; last first.
  { unfold columns_set. case_decide; [done|]. apply elem_of_app. by left. }
  cbn [bind rows]. cbn [rows] in Hrows. rewrite Hrows.
  fold (retained gdf thr wc).
  rewrite group_keys_measured, foldl_stylize_groups. done.
Qed.

Lemma stylize_without_category gdf thr prox s tol ic wc :
  "category" ∉ columns gdf →
  stylize_natural_geometries gdf thr prox s tol ic wc
  = Raise (KeyError "category").
Proof.
  intros Hcol. unfold stylize_natural_geometries, groupby_category.
  cbn [columns getitem_mask setitem_num to_crs].
  rewrite decide_False; [done|].
  unfold columns_set. case_decide; [done|].
  intros [?|Hin%list_elem_of_singleton]%elem_of_app; [done|].
  discriminate Hin.
Qed.

(** ** The order of the group keys *)

Lemma string_lt_trans (a b c : string) :
  string_lt a b → string_lt b c → string_lt a c.
Proof.
  unfold string_lt. intros Hab Hbc.
  apply OrderedTypeEx.String_as_OT.cmp_lt.
  eapply OrderedTypeEx.String_as_OT.lt_trans;
    by apply OrderedTypeEx.String_as_OT.cmp_lt.
Qed.

Lemma string_lt_irrefl (a : string) : ¬ string_lt a a.
Proof.
  unfold string_lt. intros Hlt.
  pose proof (proj2 (OrderedTypeEx.String_as_OT.cmp_eq a a) eq_refl) as Heq.
  unfold OrderedTypeEx.String_as_OT.cmp in Heq. congruence.
Qed.

Lemma string_compare_gt (a b : string) :
  String.compare a b = Gt → string_lt b a.
Proof.
  unfold string_lt. intros Hgt. rewrite String.compare_antisym, Hgt. done.
Qed.

Lemma elem_of_insert_key_2 (k k' : string) (ks : list string) :
  k = k' ∨ k ∈ ks → k ∈ insert_key k' ks.
Proof.
  induction ks as [|k0 ks IH]; cbn.
  - intros [->|?%elem_of_nil]; [by left|done].
  - destruct (String.compare k' k0) eqn:Hcmp.
    + apply String.compare_eq_iff in Hcmp as ->.
      intros [->|?]; [by left|done].
    + intros [->|?]; [by left|by right].
    + intros [->|[->|?]%elem_of_cons].
      * right. apply IH. by left.
      * by left.
      * right. apply IH. by right.
Qed.

Lemma insert_key_sorted (k : string) (ks : list string) :
  StronglySorted string_lt ks → StronglySorted string_lt (insert_key k ks).
Proof.
  induction 1 as [|k0 ks Hks IH Hk0]; cbn.
  - by repeat constructor.
  - destruct (String.compare k k0) eqn:Hcmp.
    + by constructor.
    + constructor; [by constructor|]. constructor; [done|].
      eapply Forall_impl; [exact Hk0|]. intros x Hx.
      by eapply string_lt_trans.
    + constructor; [done|]. apply Forall_forall. intros x Hx.
      apply elem_of_insert_key in Hx as [->|Hx].
      * by apply string_compare_gt.
      * rewrite Forall_forall in Hk0. by apply Hk0.
Qed.

Lemma group_keys_sorted (rs : list row) :
  StronglySorted string_lt (group_keys rs).
Proof.
  induction rs as [|r rs IH]; [constructor|].
  cbn. destruct (category_of r); cbn; [|done]. by apply insert_key_sorted.
Qed.

Lemma sorted_keys_NoDup (ks : list string) :
  StronglySorted string_lt ks → NoDup ks.
Proof.
  induction 1 as [|k ks _ IH Hk]; constructor; [|done].
  intros Hin. rewrite Forall_forall in Hk.
  exact (string_lt_irrefl k (Hk k Hin)).
Qed.

Lemma elem_of_group_keys_iff (k : string) (rs : list row) :
  k ∈ group_keys rs ↔ ∃ r, r ∈ rs ∧ category_of r = Some k.
Proof.
  split; [apply elem_of_group_keys|].
  induction rs as [|r rs IH]; intros (r' & Hr' & Hk).
  { by apply elem_of_nil in Hr'. }
  cbn. apply elem_of_cons in Hr' as [->|Hr'].
  - rewrite Hk. cbn. apply elem_of_insert_key_2. by left.
  - assert (k ∈ group_keys rs) by (apply IH; eauto).
    destruct (category_of r); cbn; [|done].
    apply elem_of_insert_key_2. by right.
Qed.

(** ** The rows of the result *)

Lemma stylize_rows gdf thr prox s tol ic wc (out : GeoDataFrame) :
  stylize_natural_geometries gdf thr prox s tol ic wc = Ok out →
  "category" ∈ columns gdf
  ∧ merged_records (crs gdf) wc prox s tol (retained gdf thr wc) ≠ []
  ∧ rows out
    = styled_row wc ic
        <$> merged_records (crs gdf) wc prox s tol (retained gdf thr wc).
Proof.
  intros Hout.
  destruct (decide ("category" ∈ columns gdf)) as [Hcol|Hcol]; last first.
  { by rewrite stylize_without_category in Hout. }
  rewrite stylize_closed_form in Hout by done.
  destruct (GeoDataFrame_of_records _ wc) as [res|] eqn:Hres; [|done].
  assert (Hne : merged_records (crs gdf) wc prox s tol (retained gdf thr wc)
                ≠ []).
  { intros Hnil. by rewrite Hnil in Hres. }
  apply GeoDataFrame_of_records_ok in Hres as (Hrows & Hcrs & _).
  cbn [bind] in Hout. injection Hout as <-. split_and!; [done..|].
  cbn [rows to_crs]. rewrite Hrows, Hcrs, <-list_fmap_compose. done.
Qed.

Lemma categories_styled_rows (wc ic : string) (recs : list styled) :
  categories (styled_row wc ic <$> recs) = styled_category <$> recs.
Proof.
  unfold categories. induction recs as [|x recs IH]; [done|].
  cbn [fmap list_fmap omap list_omap]. unfold category_of at 1. cbn.
  rewrite lookup_singleton_eq. by f_equal.
Qed.

Lemma elem_of_merged_records (src wc : string) prox s tol (rs : list row)
    (x : styled) :
  x ∈ merged_records src wc prox s tol rs →
  styled_category x ≠ "other" ∧ styled_category x ∈ group_keys rs.
Proof.
  unfold merged_records. intros Hx.
  apply list_elem_of_join in Hx as (block & Hx & Hblock).
  apply list_elem_of_fmap in Hblock as (k & -> & Hk).
  apply list_elem_of_filter in Hk as [Hk Hkeys].
  unfold emitted in Hx. apply list_elem_of_fmap in Hx as (g & -> & _).
  done.
Qed.

(** X1.  Whenever the merge returns a frame, the frame is expressed in
    [input_crs], its only attribute column is "category", and the only
    cell of each of its rows is its category label: no attribute of the
    source features survives, the recorded area included. *)
Theorem stylize_output_has_only_category gdf thr prox s tol ic wc
    (out : GeoDataFrame) :
  stylize_natural_geometries gdf thr prox s tol ic wc = Ok out →
  crs out = ic
  ∧ columns out = ["category"]
  ∧ Forall (λ r, ∃ c, cells r = {[ "category" := VStr c ]}) (rows out).
Proof.
  intros Hout. pose proof (stylize_result_frame _ _ _ _ _ _ _ _ Hout)
    as [Hcrs Hcols].
  apply stylize_rows in Hout as (_ & _ & ->).
  split_and!; [done..|]. apply Forall_fmap, Forall_true.
  intros x. by exists (styled_category x).
Qed.

(** X2.  The merge raises [KeyError] exactly when the input frame has no
    column "category"; the rows play no part in it. *)
Theorem stylize_key_error_iff gdf thr prox s tol ic wc :
  (∃ key, stylize_natural_geometries gdf thr prox s tol ic wc
          = Raise (KeyError key))
  ↔ "category" ∉ columns gdf.
Proof.
  split.
  - intros [key Hraise] Hcol. rewrite stylize_closed_form in Hraise by done.
    by destruct (merged_records _ _ _ _ _ _).
  - intros Hcol. exists "category". by apply stylize_without_category.
Qed.

Lemma merged_records_source (src wc : string) prox s tol (rs : list row) :
  merged_records src wc prox s tol rs ≠ [] →
  ∃ r c, r ∈ rs ∧ category_of r = Some c ∧ c ≠ "other".
Proof.
  intros Hne.
  destruct (merged_records src wc prox s tol rs) as [|x recs] eqn:Hrecs;
    [done|].
  assert (Hx : x ∈ merged_records src wc prox s tol rs)
    by (rewrite Hrecs; by left).
  apply elem_of_merged_records in Hx as [Hother Hkey].
  apply elem_of_group_keys_iff in Hkey as (r & Hr & Hcat).
  by exists r, (styled_category x).
Qed.

Lemma merged_records_nonempty
    (src wc : string) prox s tol (rs : list row) (r : row) (c : string) :
  Forall (λ g, multi_geoms g ≠ Some []) (merged_shapes src wc prox s tol rs) →
  r ∈ rs → category_of r = Some c → c ≠ "other" →
  merged_records src wc prox s tol rs ≠ [].
Proof.
  intros Hshapes Hr Hcat Hother Hnil.
  assert (Hkey : c ∈ filter (λ k, k ≠ "other") (group_keys rs)).
  { apply list_elem_of_filter. split; [done|].
    apply elem_of_group_keys_iff. by exists r. }
  assert (Hmulti : multi_geoms (merged_shape src wc prox s tol (labelled c rs))
                   ≠ Some []).
  { rewrite Forall_forall in Hshapes. apply Hshapes.
    unfold merged_shapes.
    by apply (list_elem_of_fmap_2
                (λ k, merged_shape src wc prox s tol (labelled k rs))). }
  destruct (polygons_of (merged_shape src wc prox s tol (labelled c rs)))
    as [|g parts] eqn:Hparts.
  { unfold polygons_of in Hparts. by destruct (multi_geoms _) as [[]|]. }
  assert (Hin : Styled c g ∈ merged_records src wc prox s tol rs).
  { unfold merged_records. apply list_elem_of_join.
    exists (emitted src wc prox s tol rs c).
    split; [|by apply list_elem_of_fmap_2].
    unfold emitted. rewrite Hparts. by left. }
  rewrite Hnil in Hin. by apply elem_of_nil in Hin.
Qed.

(** X3.  Take a frame with a category column whose labels are strings or
    missing, and a run in which no merged shape is a MultiPolygon without a
    part.  The merge returns a frame exactly when some row above the area
    threshold has a label other than "other"; otherwise it raises. *)
Theorem stylize_returns_iff gdf thr prox s tol ic wc :
  "category" ∈ columns gdf →
  string_labels (rows gdf) →
  Forall (λ g, multi_geoms g ≠ Some [])
         (merged_shapes (crs gdf) wc prox s tol (retained gdf thr wc)) →
  (∃ out, stylize_natural_geometries gdf thr prox s tol ic wc = Ok out)
  ↔ ∃ r c, r ∈ rows gdf ∧ thr < metric_area (crs gdf) wc r
           ∧ category_of r = Some c ∧ c ≠ "other".
Proof.
  intros Hcol _ Hshapes. split.
  - intros [out Hout]. apply stylize_rows in Hout as (_ & Hne & _).
    apply merged_records_source in Hne as (r & c & Hr & Hcat & Hother).
    apply list_elem_of_filter in Hr as [Harea Hr].
    by exists r, c.
  - intros (r & c & Hr & Harea & Hcat & Hother).
    rewrite stylize_closed_form by done.
    assert (Hne : merged_records (crs gdf) wc prox s tol
                    (retained gdf thr wc) ≠ []).
    { apply (merged_records_nonempty _ _ _ _ _ _ r c Hshapes); [|done..].
      by apply list_elem_of_filter. }
    destruct (merged_records _ _ _ _ _ _) as [|x0 recs]; [done|].
    cbn. eauto.
Qed.

(** X4.  Whenever the merge returns a frame, the category of each of its
    rows is the label of some input row whose area exceeds the threshold:
    the merge invents no category and none comes from a discarded row. *)
Theorem stylize_categories_come_from_retained_rows gdf thr prox s tol ic wc
    (out : GeoDataFrame) :
  stylize_natural_geometries gdf thr prox s tol ic wc = Ok out →
  Forall (λ r, ∃ c src, category_of r = Some c
                        ∧ src ∈ rows gdf
                        ∧ thr < metric_area (crs gdf) wc src
                        ∧ category_of src = Some c)
         (rows out).
Proof.
  intros Hout. apply stylize_rows in Hout as (_ & _ & ->).
  apply Forall_fmap, Forall_forall. intros x Hx.
  apply elem_of_merged_records in Hx as [_ Hkey].
  apply elem_of_group_keys_iff in Hkey as (src & Hsrc & Hcat).
  apply list_elem_of_filter in Hsrc as [Harea Hsrc].
  exists (styled_category x), src. split_and!; [|done..].
  unfold category_of. cbn. by rewrite lookup_singleton_eq.
Qed.

(** X5.  The rows at or below the area threshold have no influence on the
    merge: removing them from the input beforehand gives the same result,
    the same exception included. *)
Theorem stylize_ignores_small_rows gdf thr prox s tol ic wc :
  stylize_natural_geometries (without_small gdf thr wc) thr prox s tol ic wc
  = stylize_natural_geometries gdf thr prox s tol ic wc.
Proof.
  destruct (decide ("category" ∈ columns gdf)) as [Hcol|Hcol].
  - rewrite !stylize_closed_form by done. cbn [crs without_small].
    assert (Hret : retained (without_small gdf thr wc) thr wc
                   = retained gdf thr wc).
    { unfold retained. cbn [crs rows without_small]. unfold retained.
      apply filter_all. apply Forall_forall.
      by intros r [? _]%list_elem_of_filter. }
    by rewrite Hret.
  - by rewrite !stylize_without_category.
Qed.

(** ** One category at a time *)

Lemma sorted_filter_keys (P : string → Prop) `{!∀ k, Decision (P k)}
    (ks : list string) :
  StronglySorted string_lt ks → StronglySorted string_lt (filter P ks).
Proof.
  induction 1 as [|k ks _ IH Hk]; [constructor|].
  rewrite filter_cons. case_decide; [|done].
  constructor; [done|]. apply Forall_forall.
  intros x [_ Hx]%list_elem_of_filter.
  rewrite Forall_forall in Hk. by apply Hk.
Qed.

Lemma emitted_category (src wc : string) prox s tol (rs : list row)
    (k : string) :
  Forall (λ x, styled_category x = k) (emitted src wc prox s tol rs k).
Proof. unfold emitted. by apply Forall_fmap, Forall_true. Qed.

Lemma string_le_refl (a : string) : string_le a a.
Proof.
  unfold string_le.
  pose proof (proj2 (OrderedTypeEx.String_as_OT.cmp_eq a a) eq_refl) as Heq.
  unfold OrderedTypeEx.String_as_OT.cmp in Heq. congruence.
Qed.

Lemma string_lt_le (a b : string) : string_lt a b → string_le a b.
Proof. unfold string_lt, string_le. congruence. Qed.

Lemma filter_none {A} (P : A → Prop) `{!∀ x, Decision (P x)} (l : list A) :
  Forall (λ x, ¬ P x) l → filter P l = [].
Proof.
  induction 1 as [|x l HP _ IH]; [done|].
  by rewrite filter_cons, decide_False.
Qed.

(** The records of category [k] among those of sorted keys. *)
Lemma filter_merged_blocks (f : string → list styled) (k : string)
    (keys : list string) :
  (∀ k', Forall (λ x, styled_category x = k') (f k')) →
  NoDup keys →
  filter (λ x, styled_category x = k) (mjoin (f <$> keys))
  = if decide (k ∈ keys) then f k else [].
Proof.
  intros Hf. induction 1 as [|k0 keys Hk0 _ IH]; [done|].
  csimpl. rewrite filter_app, IH.
  destruct (decide (k0 = k)) as [->|Hne].
  - rewrite (decide_True (P := k ∈ k :: keys)) by (by left).
    rewrite (decide_False (P := k ∈ keys)) by done.
    rewrite app_nil_r. apply filter_all. apply Hf.
  - assert (Hnone : filter (λ x, styled_category x = k) (f k0) = []).
    { apply filter_none. eapply Forall_impl; [apply Hf|].
      cbn. congruence. }
    rewrite Hnone. cbn [app].
    destruct (decide (k ∈ keys)) as [Hin|Hin].
    + rewrite (decide_True (P := k ∈ k0 :: keys)); [done|by right].
    + rewrite (decide_False (P := k ∈ k0 :: keys)); [done|].
      by intros [->|?]%elem_of_cons.
Qed.

Lemma labelled_styled_rows (wc ic k : string) (recs : list styled) :
  labelled k (styled_row wc ic <$> recs)
  = styled_row wc ic <$> filter (λ x, styled_category x = k) recs.
Proof.
  unfold labelled. induction recs as [|x recs IH]; [done|].
  cbn [fmap list_fmap]. rewrite !filter_cons.
  assert (Hcat : category_of (styled_row wc ic x) = Some (styled_category x)).
  { unfold category_of. cbn. by rewrite lookup_singleton_eq. }
  rewrite Hcat. destruct (decide (styled_category x = k)) as [->|Hne].
  - rewrite decide_True by done. cbn. by f_equal.
  - rewrite decide_False by congruence. done.
Qed.

Lemma emitted_ext (src wc : string) prox s tol (rs1 rs2 : list row)
    (k : string) :
  geometry <$> labelled k rs1 = geometry <$> labelled k rs2 →
  emitted src wc prox s tol rs1 k = emitted src wc prox s tol rs2 k.
Proof.
  intros Hgeo. unfold emitted, merged_shape.
  assert (Hbuf : ∀ rs : list row,
            (λ r, buffer (reproject src wc (geometry r)) prox) <$> rs
            = (λ g, buffer (reproject src wc g) prox) <$> (geometry <$> rs)).
  { intros rs. by rewrite <-list_fmap_compose. }
  by rewrite (Hbuf (labelled k rs1)), (Hbuf (labelled k rs2)), Hgeo.
Qed.

Lemma elem_of_group_keys_labelled (k : string) (rs : list row) :
  k ∈ group_keys rs ↔ geometry <$> labelled k rs ≠ [].
Proof.
  rewrite elem_of_group_keys_iff. unfold labelled. split.
  - intros (r & Hr & Hcat) Hnil. apply fmap_nil_inv in Hnil.
    assert (Hin : r ∈ filter (λ r, category_of r = Some k) rs)
      by (by apply list_elem_of_filter).
    rewrite Hnil in Hin. by apply elem_of_nil in Hin.
  - intros Hne. destruct (filter _ rs) as [|r rs'] eqn:Hf; [done|].
    assert (Hin : r ∈ filter (λ r, category_of r = Some k) rs)
      by (rewrite Hf; by left).
    apply list_elem_of_filter in Hin as [? ?]. eauto.
Qed.

(** X6.  No merging across categories.  Take two frames in the same
    reference frame on which the merge returns.  If their rows above the
    threshold that are labelled [k] carry the same geometries, in the same
    order, then their output rows of category [k] are the same, whatever
    the rows of the other categories are. *)
Theorem stylize_category_independent (gdf1 gdf2 : GeoDataFrame)
    thr prox s tol ic wc (k : string) (out1 out2 : GeoDataFrame) :
  crs gdf1 = crs gdf2 →
  stylize_natural_geometries gdf1 thr prox s tol ic wc = Ok out1 →
  stylize_natural_geometries gdf2 thr prox s tol ic wc = Ok out2 →
  geometry <$> labelled k (retained gdf1 thr wc)
  = geometry <$> labelled k (retained gdf2 thr wc) →
  labelled k (rows out1) = labelled k (rows out2).
Proof.
  intros Hcrs Hout1 Hout2 Hgeo.
  apply stylize_rows in Hout1 as (_ & _ & ->).
  apply stylize_rows in Hout2 as (_ & _ & ->).
  rewrite !labelled_styled_rows. f_equal. unfold merged_records.
  rewrite !filter_merged_blocks;
    try (by intros; apply emitted_category);
    try (by apply sorted_keys_NoDup, sorted_filter_keys, group_keys_sorted).
  assert (Hkey : ∀ gdf, k ∈ filter (λ k, k ≠ "other")
                               (group_keys (retained gdf thr wc))
                 ↔ k ≠ "other"
                   ∧ geometry <$> labelled k (retained gdf thr wc) ≠ []).
  { intros gdf. by rewrite list_elem_of_filter, elem_of_group_keys_labelled. }
  destruct (decide (k ∈ filter _ (group_keys (retained gdf1 thr wc))))
    as [Hin|Hin].
  - rewrite decide_True; last first.
    { apply Hkey. rewrite <-Hgeo. by apply Hkey. }
    rewrite Hcrs. by apply emitted_ext.
  - rewrite decide_False; [done|].
    intros Hin2. apply Hin, Hkey. rewrite Hgeo. by apply Hkey.
Qed.

Lemma constant_block_sorted (k : string) (blk : list styled) :
  Forall (λ x, styled_category x = k) blk →
  StronglySorted string_le (styled_category <$> blk).
Proof.
  induction 1 as [|x blk Hx Hblk IH]; [constructor|].
  csimpl. constructor; [done|]. rewrite Hx.
  apply Forall_fmap. eapply Forall_impl; [exact Hblk|].
  cbn. intros y <-. apply string_le_refl.
Qed.

(** X7.  Whenever the merge returns a frame, its rows are ordered by
    category, ascending in the order of strings; the rows of one category
    are consecutive. *)
Theorem stylize_rows_sorted_by_category gdf thr prox s tol ic wc
    (out : GeoDataFrame) :
  stylize_natural_geometries gdf thr prox s tol ic wc = Ok out →
  StronglySorted string_le (categories (rows out)).
Proof.
  intros Hout. apply stylize_rows in Hout as (_ & _ & ->).
  rewrite categories_styled_rows. unfold merged_records.
  pose proof (sorted_filter_keys (λ k, k ≠ "other") _
                (group_keys_sorted (retained gdf thr wc))) as Hsorted.
  induction Hsorted as [|k keys _ IH Hk]; [constructor|].
  csimpl. rewrite fmap_app.
  apply StronglySorted_app_2; [| |exact IH].
  - intros c1 c2 Hc1 Hc2.
    apply list_elem_of_fmap in Hc1 as (x1 & -> & Hx1).
    apply list_elem_of_fmap in Hc2 as (x2 & -> & Hx2).
    pose proof (emitted_category (crs gdf) wc prox s tol
                  (retained gdf thr wc) k) as Hblock.
    rewrite Forall_forall in Hblock. rewrite (Hblock x1 Hx1).
    apply list_elem_of_join in Hx2 as (block & Hx2 & Hb).
    apply list_elem_of_fmap in Hb as (k' & -> & Hk').
    pose proof (emitted_category (crs gdf) wc prox s tol
                  (retained gdf thr wc) k') as Hblock'.
    rewrite Forall_forall in Hblock'. rewrite (Hblock' x2 Hx2).
    apply string_lt_le. rewrite Forall_forall in Hk. by apply Hk.
  - eapply constant_block_sorted, emitted_category.
Qed.

Lemma merged_records_single (src wc : string) prox s tol (rs : list row) :
  Forall (λ g, multi_geoms g = None) (merged_shapes src wc prox s tol rs) →
  styled_category <$> merged_records src wc prox s tol rs
  = filter (λ k, k ≠ "other") (group_keys rs).
Proof.
  unfold merged_shapes, merged_records.
  induction (filter _ (group_keys rs)) as [|k keys IH]; [done|].
  csimpl. intros [Hk Hkeys]%Forall_cons. rewrite fmap_app, IH by done.
  unfold emitted, polygons_of. by rewrite Hk.
Qed.

(** X8.  Take a frame whose labels are strings or missing, and a run in
    which no merged shape is a MultiPolygon.  Whenever the merge returns a
    frame, it has exactly one row for each category other than "other"
    that labels some row above the area threshold, and no other row. *)
Theorem stylize_one_row_per_category gdf thr prox s tol ic wc
    (out : GeoDataFrame) :
  string_labels (rows gdf) →
  Forall (λ g, multi_geoms g = None)
         (merged_shapes (crs gdf) wc prox s tol (retained gdf thr wc)) →
  stylize_natural_geometries gdf thr prox s tol ic wc = Ok out →
  length (categories (rows out)) = length (rows out)
  ∧ NoDup (categories (rows out))
  ∧ ∀ c, c ∈ categories (rows out)
         ↔ c ≠ "other"
           ∧ ∃ r, r ∈ rows gdf ∧ thr < metric_area (crs gdf) wc r
                  ∧ category_of r = Some c.
Proof.
  intros _ Hshapes Hout. apply stylize_rows in Hout as (_ & _ & ->).
  rewrite categories_styled_rows, !length_fmap.
  rewrite (merged_records_single _ _ _ _ _ _ Hshapes).
  split_and!; [done| |].
  - apply sorted_keys_NoDup, sorted_filter_keys, group_keys_sorted.
  - intros c. rewrite list_elem_of_filter, elem_of_group_keys_iff.
    unfold retained. split.
    + intros (Hc & r & [? ?]%list_elem_of_filter & ?). eauto 10.
    + intros (Hc & r & ? & ? & ?). split; [done|]. exists r.
      split; [|done]. by apply list_elem_of_filter.
Qed.

End MergeFacts.

(** * Further properties of the generic filter *)

Section GenericFilterMore.
Context `{G : Geometry}.
Implicit Types (gdf : GeoDataFrame) (thr s tol : Qc) (ic wc : string).

(** X9.  Raising the area threshold only removes rows: the output for the
    higher threshold is the output for the lower one with some rows left
    out, the remaining rows unchanged and in the same order. *)
Theorem filter_threshold_monotone gdf thr thr' s tol ic wc :
  thr ≤ thr' →
  rows (filter_and_smooth_geometries gdf thr' s tol ic wc)
    `sublist_of` rows (filter_and_smooth_geometries gdf thr s tol ic wc).
Proof.
  intros Hle. rewrite !filter_and_smooth_rows. apply fmap_sublist.
  rewrite <-(list_filter_filter_l
               (λ r, thr' < metric_area (crs gdf) wc r)
               (λ r, thr < metric_area (crs gdf) wc r)).
  - apply sublist_filter.
  - intros r Hr. by eapply Qcle_lt_trans.
Qed.

(** X10.  The generic filter works row by row: its output on a frame is
    the concatenation, in row order, of its outputs on the frames made of
    each single row.  No output row depends on another input row. *)
Theorem filter_is_row_wise gdf thr s tol ic wc :
  rows (filter_and_smooth_geometries gdf thr s tol ic wc)
  = mjoin ((λ r, rows (filter_and_smooth_geometries (single_row gdf r)
                         thr s tol ic wc))
             <$> rows gdf).
Proof.
  rewrite filter_and_smooth_rows.
  set (alone := λ r, rows (filter_and_smooth_geometries (single_row gdf r)
                            thr s tol ic wc)).
  assert (Halone : ∀ r, alone r
            = cleaned_row (crs gdf) wc ic s tol
                <$> filter (λ r, thr < metric_area (crs gdf) wc r) [r]).
  { intros r. unfold alone. by rewrite filter_and_smooth_rows. }
  induction (rows gdf) as [|r rs IH]; [done|].
  change (mjoin (alone <$> r :: rs))
    with (alone r ++ mjoin (alone <$> rs))%list.
  rewrite <-IH, Halone, filter_cons, (filter_cons _ r []).
  by case_decide.
Qed.

End GenericFilterMore.

(** * Further properties of the route extractor *)

Section TraverseFacts.
Context {A B : Type} (f : A → result B).

Lemma traverse_ok (l : list A) (ys : list B) :
  traverse f l = Ok ys ↔ Forall2 (λ x y, f x = Ok y) l ys.
Proof.
  revert ys. induction l as [|x l IH]; intros ys; cbn.
  - split; [intros [= <-]; constructor|by inversion 1].
  - destruct (f x) as [y|e] eqn:Hx; cbn.
    + destruct (traverse f l) as [ys'|e] eqn:Hl; cbn.
      * split.
        -- intros [= <-]. constructor; [done|]. by apply IH.
        -- inversion 1 as [|? y' ? ys'' Hy Hys]; subst.
           apply IH in Hys. congruence.
      * split; [done|]. inversion 1 as [|? y' ? ys'' Hy Hys]; subst.
        apply IH in Hys. congruence.
    + split; [done|]. inversion 1; congruence.
Qed.

Lemma traverse_raise (pre post : list A) (x : A) (e : exn) :
  Forall (λ x, ∃ y, f x = Ok y) pre → f x = Raise e →
  traverse f (pre ++ x :: post) = Raise e.
Proof.
  intros Hpre Hx. induction Hpre as [|x0 pre [y Hy] _ IH]; cbn.
  - by rewrite Hx.
  - by rewrite Hy, IH.
Qed.

Lemma traverse_raise_inv (l : list A) (e : exn) :
  traverse f l = Raise e → ∃ x, x ∈ l ∧ f x = Raise e.
Proof.
  induction l as [|x l IH]; cbn; [done|].
  destruct (f x) as [y|e'] eqn:Hx; cbn.
  - destruct (traverse f l) as [ys|e'']; cbn; [done|].
    intros [= ->]. destruct IH as (x' & ? & ?); [done|].
    exists x'. split; [by right|done].
  - intros [= ->]. exists x. split; [by left|done].
Qed.

Lemma traverse_length (l : list A) (ys : list B) :
  traverse f l = Ok ys → length ys = length l.
Proof. intros Hok%traverse_ok. symmetry. by eapply Forall2_length. Qed.

End TraverseFacts.

Section SplitFacts.
Implicit Types (sep : N → bool) (cs ws s w : str).

Lemma pieces_nonempty sep s : pieces sep s ≠ [].
Proof.
  destruct s as [|c s]; cbn; [done|].
  destruct (sep c); [done|]. by destruct (pieces sep s).
Qed.

Lemma pieces_trailing sep cs ws :
  Forall (λ c, sep c = true) ws →
  pieces sep (cs ++ ws)%list
  = (pieces sep cs ++ replicate (length ws) [])%list.
Proof.
  intros Hws. induction cs as [|c cs IH]; cbn.
  - induction Hws as [|c ws Hc _ IH]; cbn; [done|].
    rewrite Hc. by rewrite IH.
  - rewrite IH. destruct (sep c); [done|].
    pose proof (pieces_nonempty sep cs) as Hne.
    by destruct (pieces sep cs).
Qed.

Lemma pieces_leading sep cs ws :
  Forall (λ c, sep c = true) ws →
  pieces sep (ws ++ cs)%list
  = (replicate (length ws) [] ++ pieces sep cs)%list.
Proof.
  induction 1 as [|c ws Hc _ IH]; cbn; [done|]. by rewrite Hc, IH.
Qed.

Lemma filter_blank_replicate (n : nat) :
  filter (λ w : str, w ≠ []) (replicate n []) = [].
Proof.
  induction n as [|n IH]; [done|].
  cbn [replicate]. rewrite filter_cons, decide_False; [done|].
  by intros [].
Qed.

Lemma lstrip_split cs :
  ∃ ws, cs = (ws ++ lstrip cs)%list ∧ Forall (λ c, is_space c = true) ws.
Proof.
  induction cs as [|c cs (ws & Hcs & Hws)]; cbn.
  - by exists [].
  - destruct (is_space c) eqn:Hc.
    + exists (c :: ws). split; [cbn; by f_equal|by constructor].
    + by exists [].
Qed.

(** Blank characters around a text do not change its tokens. *)
Lemma split_whitespace_strip s :
  split_whitespace (strip s) = split_whitespace s.
Proof.
  unfold strip, split_whitespace.
  destruct (lstrip_split s) as (ws1 & Hs & Hws1).
  set (m := lstrip s) in *.
  destruct (lstrip_split (rev m)) as (ws2 & Hm & Hws2).
  set (core := rev (lstrip (rev m))).
  assert (Hm' : m = (core ++ rev ws2)%list).
  { rewrite <-(rev_involutive m), Hm, rev_app_distr. done. }
  assert (Hrhs : pieces is_space s
                 = pieces is_space (ws1 ++ core ++ rev ws2)%list).
  { by rewrite <-Hm', <-Hs. }
  rewrite Hrhs. clear Hrhs.
  rewrite pieces_leading by done.
  rewrite pieces_trailing.
  2:{ apply Forall_forall. intros c Hc. rewrite Forall_forall in Hws2.
      apply Hws2. by apply list_elem_of_In, in_rev, list_elem_of_In. }
  by rewrite !filter_app, !filter_blank_replicate, app_nil_r.
Qed.

Lemma pieces_no_separator sep s :
  Forall (λ w, Forall (λ c, sep c = false) w) (pieces sep s).
Proof.
  induction s as [|c s IH]; cbn.
  - by repeat constructor.
  - destruct (sep c) eqn:Hc.
    + constructor; [constructor|done].
    + destruct (pieces sep s) as [|w ws]; [by repeat constructor|].
      apply Forall_cons in IH as [Hw Hws].
      constructor; [|done]. by constructor.
Qed.

Lemma lstrip_no_blank cs :
  Forall (λ c, is_space c = false) cs → lstrip cs = cs.
Proof. destruct 1 as [|c cs Hc _]; cbn; [done|]. by rewrite Hc. Qed.

(** A token of a text has no blank character to strip. *)
Lemma strip_token s w : w ∈ split_whitespace s → strip w = w.
Proof.
  unfold split_whitespace. intros [_ Hw]%list_elem_of_filter.
  pose proof (pieces_no_separator is_space s) as Hall.
  rewrite Forall_forall in Hall. specialize (Hall w Hw).
  unfold strip. rewrite (lstrip_no_blank _ Hall).
  rewrite lstrip_no_blank.
  - by rewrite rev_involutive.
  - apply Forall_forall. intros c Hc. rewrite Forall_forall in Hall.
    apply Hall. by apply list_elem_of_In, in_rev, list_elem_of_In.
Qed.

End SplitFacts.

Section ExtractMore.
Variable float : str → option spec_float.

Lemma traverse_ext {A B} (f g : A → result B) (l : list A) :
  (∀ x, x ∈ l → f x = g x) → traverse f l = traverse g l.
Proof.
  induction l as [|x l IH]; intros Hfg; [done|].
  cbn. rewrite Hfg by (by left). rewrite IH; [done|].
  intros y Hy. apply Hfg. by right.
Qed.

Lemma float_or_raise_ok (field : str) (x : spec_float) :
  float_or_raise float field = Ok x ↔ float field = Some x.
Proof.
  unfold float_or_raise. destruct (float field); split; congruence.
Qed.

Lemma read_fields_ok (fields : list str) (tuple : list spec_float) :
  traverse (float_or_raise float) fields = Ok tuple
  ↔ Forall2 (λ field x, float field = Some x) fields tuple.
Proof.
  rewrite traverse_ok.
  split; intros Hall; (eapply Forall2_impl; [exact Hall|]);
    intros field x; apply float_or_raise_ok.
Qed.

(** Reading the coordinates text, without the calls of [strip]. *)
Lemma read_text (text : str) :
  traverse (λ coord, traverse (float_or_raise float)
                       (split_comma (strip coord)))
           (split_whitespace (strip text))
  = traverse (λ tok, traverse (float_or_raise float) (split_comma tok))
             (split_whitespace text).
Proof.
  rewrite split_whitespace_strip. apply traverse_ext.
  intros tok Htok. by rewrite (strip_token text).
Qed.

Lemma read_placemark_ok (pm : placemark) (r : route_row) :
  read_placemark float pm = Ok r
  ↔ ∃ text, coordinates_element pm = Some (Some text)
      ∧ Name r = row_name pm
      ∧ Forall2 (λ tok tuple,
                   Forall2 (λ field x, float field = Some x)
                           (split_comma tok) tuple)
                (split_whitespace text) (Coordinates r).
Proof.
  unfold read_placemark, row_name.
  destruct (coordinates_element pm) as [[text|]|].
  - rewrite read_text.
    destruct (traverse _ (split_whitespace text)) as [coords|e] eqn:Hread.
    + cbn [bind]. split.
      * intros [= <-]. exists text. split_and!; [done..|]. cbn.
        apply traverse_ok in Hread.
        eapply Forall2_impl; [exact Hread|]. intros tok tuple.
        apply read_fields_ok.
      * intros (text' & [= <-] & Hname & Hcoords).
        destruct r as [name coords']. cbn in *. subst name.
        assert (Hread' : traverse (λ tok, traverse (float_or_raise float)
                                            (split_comma tok))
                           (split_whitespace text) = Ok coords').
        { apply traverse_ok. eapply Forall2_impl; [exact Hcoords|].
          intros tok tuple. apply read_fields_ok. }
        congruence.
    + cbn [bind]. split; [done|].
      intros (text' & [= <-] & _ & Hcoords).
      assert (Hok : traverse (λ tok, traverse (float_or_raise float)
                                       (split_comma tok))
                             (split_whitespace text) = Ok (Coordinates r)).
      { apply traverse_ok. eapply Forall2_impl; [exact Hcoords|].
        intros tok tuple. apply read_fields_ok. }
      congruence.
  - split; [done|]. by intros (text & ? & _).
  - split; [done|]. by intros (text & ? & _).
Qed.

Lemma read_placemark_readable (pm : placemark) :
  (∃ r, read_placemark float pm = Ok r) ↔ readable float pm.
Proof.
  split.
  - intros (r & (text & Hel & _ & Hcoords)%read_placemark_ok).
    exists text. split; [done|].
    eapply Forall2_Forall_l; [exact Hcoords|].
    apply Forall_true. intros tuple tok Htuple.
    eapply Forall2_Forall_l; [exact Htuple|].
    apply Forall_true. intros x field ->. done.
  - intros (text & Hel & Hall). unfold read_placemark. rewrite Hel, read_text.
    destruct (traverse _ (split_whitespace text)) as [coords|e] eqn:Hread.
    { cbn. eauto. }
    apply traverse_raise_inv in Hread as (tok & Htok & Hraise).
    apply traverse_raise_inv in Hraise as (field & Hfield & Hraise).
    rewrite Forall_forall in Hall. specialize (Hall tok Htok).
    rewrite Forall_forall in Hall. destruct (Hall field Hfield) as [x Hx].
    unfold float_or_raise in Hraise. by rewrite Hx in Hraise.
Qed.

Lemma read_placemark_error (pm : placemark) (e : exn) :
  read_placemark float pm = Raise e →
  match coordinates_element pm with
  | Some (Some _) => e = ValueError "could not convert string to float"
  | _ => ∃ msg, e = AttributeError msg
  end.
Proof.
  unfold read_placemark. destruct (coordinates_element pm) as [[text|]|].
  - destruct (traverse _ _) as [coords|e'] eqn:Hread; [done|].
    cbn. intros [= ->].
    apply traverse_raise_inv in Hread as (tok & _ & Hraise).
    apply traverse_raise_inv in Hraise as (field & _ & Hraise).
    unfold float_or_raise in Hraise. destruct (float field); congruence.
  - intros [= <-]. eauto.
  - intros [= <-]. eauto.
Qed.



(** X12.  The first placemark that cannot be read decides the exception,
    whatever follows it and whatever the slice: [AttributeError] when it
    has no coordinates text, [ValueError] when a field of its text is not
    accepted by [float]. *)
Theorem extractor_first_failure (pre post : list placemark) (pm : placemark)
    (segment_slice : Z * Z) :
  Forall (readable float) pre → ¬ readable float pm →
  match coordinates_element pm with
  | Some (Some _) =>
      extract_kml_segments float (pre ++ pm :: post) segment_slice
      = Raise (ValueError "could not convert string to float")
  | _ =>
      ∃ msg, extract_kml_segments float (pre ++ pm :: post) segment_slice
             = Raise (AttributeError msg)
  end.
Proof.
  intros Hpre Hpm.
  destruct (read_placemark float pm) as [r|e] eqn:Hread.
  { destruct Hpm. apply read_placemark_readable. eauto. }
  assert (Hraise : extract_kml_segments float (pre ++ pm :: post)
                     segment_slice = Raise e).
  { unfold extract_kml_segments. erewrite traverse_raise; [done| |done].
    eapply Forall_impl; [exact Hpre|]. intros pm'.
    apply read_placemark_readable. }
  apply read_placemark_error in Hread.
  destruct (coordinates_element pm) as [[text|]|].
  - by subst e.
  - destruct Hread as [msg ->]. eauto.
  - destruct Hread as [msg ->]. eauto.
Qed.

Lemma extract_ok (doc : list placemark) (segment_slice : Z * Z)
    (segments_df points_df : list route_row) :
  extract_kml_segments float doc segment_slice
  = Ok (segments_df, points_df) →
  ∃ table,
    traverse (read_placemark float) doc = Ok table
    ∧ points_df = filter (λ r, length (Coordinates r) = 1%nat) table
    ∧ segments_df
      = iloc_slice (filter (λ r, (1 < length (Coordinates r))%nat) table)
                   segment_slice.1 segment_slice.2.
Proof.
  unfold extract_kml_segments.
  destruct (traverse _ doc) as [table|]; [cbn [bind]|done].
  destruct table as [|r0 table]; [done|]. intros [= <- <-]. eauto.
Qed.

(** X13.  When the extractor returns, the rows it has read follow the
    placemarks one to one, in document order: a row has the name of its
    placemark ("Unnamed" without a name element), one coordinate tuple for
    each blank-separated token of the coordinates text, and in each tuple
    one number for each comma-separated field of the token.  The points
    table holds the rows with exactly one tuple: a placemark is a point
    exactly when its text has a single token. *)
Theorem extractor_rows_follow_text (doc : list placemark)
    (segment_slice : Z * Z) (segments_df points_df : list route_row) :
  extract_kml_segments float doc segment_slice
  = Ok (segments_df, points_df) →
  ∃ table : list route_row,
    Forall2
      (λ pm r, ∃ text,
         coordinates_element pm = Some (Some text)
         ∧ Name r = row_name pm
         ∧ length (Coordinates r) = length (split_whitespace text)
         ∧ Forall2 (λ tok tuple,
                      Forall2 (λ field x, float field = Some x)
                              (split_comma tok) tuple)
                   (split_whitespace text) (Coordinates r))
      doc table
    ∧ points_df = filter (λ r, length (Coordinates r) = 1%nat) table.
Proof.
  intros (table & Htable & Hpts & _)%extract_ok.
  exists table. split; [|done].
  apply traverse_ok in Htable. eapply Forall2_impl; [exact Htable|].
  intros pm r (text & Hel & Hname & Hcoords)%read_placemark_ok.
  exists text. split_and!; [done..| |done].
  symmetry. by eapply Forall2_length.
Qed.

Lemma length_filter_exclusive {A} (P Q : A → Prop)
    `{!∀ x, Decision (P x), !∀ x, Decision (Q x)} (l : list A) :
  (∀ x, P x → ¬ Q x) →
  (length (filter P l) + length (filter Q l) ≤ length l)%nat.
Proof.
  intros Hex. induction l as [|x l IH]; [done|].
  rewrite !filter_cons. destruct (decide (P x)) as [HP|HP].
  - rewrite decide_False by (by apply Hex). cbn. lia.
  - destruct (decide (Q x)); cbn; lia.
Qed.

(** X14.  When the extractor returns, both tables keep the document order
    (they are the rows read, with some left out), no row of either table
    is without coordinates, so a placemark with a blank coordinates text is
    silently in neither, and together they hold at most as many rows as
    the document has placemarks. *)
Theorem extractor_tables_are_sublists (doc : list placemark)
    (segment_slice : Z * Z) (segments_df points_df : list route_row) :
  extract_kml_segments float doc segment_slice
  = Ok (segments_df, points_df) →
  ∃ table : list route_row,
    traverse (read_placemark float) doc = Ok table
    ∧ length table = length doc
    ∧ points_df `sublist_of` table
    ∧ segments_df `sublist_of` table
    ∧ (∀ r, r ∈ points_df ∨ r ∈ segments_df → Coordinates r ≠ [])
    ∧ (length points_df + length segments_df ≤ length doc)%nat.
Proof.
  intros (table & Htable & -> & ->)%extract_ok.
  set (cands := filter (λ r, (1 < length (Coordinates r))%nat) table).
  assert (Hslice : iloc_slice cands segment_slice.1 segment_slice.2
                     `sublist_of` cands).
  { unfold iloc_slice. etrans; [apply sublist_take|apply sublist_drop]. }
  pose proof (traverse_length _ _ _ Htable) as Hlen.
  exists table. split_and!; [done..|apply sublist_filter| | |].
  - etrans; [exact Hslice|apply sublist_filter].
  - intros r [Hr|Hr] Hnil.
    + apply list_elem_of_filter in Hr as [Hr _]. rewrite Hnil in Hr. done.
    + eapply elem_of_sublist in Hr; [|exact Hslice].
      apply list_elem_of_filter in Hr as [Hr _]. rewrite Hnil in Hr.
      cbn in Hr. lia.
  - apply sublist_length in Hslice. rewrite <-Hlen.
    pose proof (length_filter_exclusive
                  (λ r, length (Coordinates r) = 1%nat)
                  (λ r, (1 < length (Coordinates r))%nat) table) as Hex.
    fold cands in Hex.
    assert (Hdisj : ∀ r : route_row,
              length (Coordinates r) = 1%nat
              → ¬ (1 < length (Coordinates r))%nat) by (intros r ->; lia).
    specialize (Hex Hdisj). clearbody cands. lia.
Qed.

Lemma iloc_slice_lookup {A} (l : list A) (start stop : Z) (i : nat) :
  (0 ≤ start)%Z → (0 ≤ stop)%Z →
  iloc_slice l start stop !! i
  = if decide (start + Z.of_nat i < stop)%Z
    then l !! (Z.to_nat start + i)%nat else None.
Proof.
  intros Hstart Hstop. unfold iloc_slice, slice_bound.
  rewrite !(proj2 (Z.ltb_ge _ _)) by lia.
  remember (Z.of_nat (length l)) as n eqn:Hn.
  destruct (decide (Z.of_nat i < Z.min stop n - Z.min start n)%Z)
    as [Hi|Hi].
  - rewrite lookup_take_lt by lia. rewrite lookup_drop.
    rewrite decide_True by lia. f_equal. lia.
  - rewrite lookup_take_ge by lia. case_decide; [|done].
    symmetry. apply lookup_ge_None. lia.
Qed.

(** X15.  With a slice of two non-negative bounds, as the default (3, 11)
    is, the segments table is the window from [start] up to [stop] of the
    placemarks with more than one coordinate: its row [i] is their row
    [start + i] as long as [start + i < stop], and it has no further row.
    The first [start] of them are never returned. *)
Theorem extractor_segments_window (doc : list placemark) (start stop : Z)
    (segments_df points_df : list route_row) :
  (0 ≤ start)%Z → (0 ≤ stop)%Z →
  extract_kml_segments float doc (start, stop)
  = Ok (segments_df, points_df) →
  ∃ table : list route_row,
    traverse (read_placemark float) doc = Ok table
    ∧ (length segments_df ≤ Z.to_nat (stop - start))%nat
    ∧ ∀ i : nat,
        segments_df !! i
        = if decide (start + Z.of_nat i < stop)%Z
          then filter (λ r, (1 < length (Coordinates r))%nat) table
               !! (Z.to_nat start + i)%nat
          else None.
Proof.
  intros Hstart Hstop (table & Htable & _ & ->)%extract_ok.
  exists table. split_and!; [done| |].
  - cbn [fst snd]. unfold iloc_slice, slice_bound.
    rewrite !(proj2 (Z.ltb_ge _ _)) by lia. rewrite length_take. lia.
  - intros i. by apply iloc_slice_lookup.
Qed.

End ExtractMore.

(** * Further properties of the Coordinates cell *)

Section CellMore.
Implicit Types (x : spec_float) (t : list spec_float)
  (l : list (list spec_float)) (ts : list token).

Lemma literal_eval_finite l :
  Forall (Forall (λ x, is_finite x = true)) l →
  literal_eval (coordinates_cell l) = Ok l.
Proof.
  intros Hfin. unfold literal_eval, coordinates_cell.
  destruct l as [|t l]; [done|]. by rewrite read_tuples.
Qed.

Lemma read_after_malformed ts : foldl read_token Malformed ts = Malformed.
Proof. induction ts as [|tok ts IH]; [done|]. exact IH. Qed.

Lemma read_name (st : reader) (id : string) ts ts' :
  foldl read_token st (ts ++ NAME id :: ts') = Malformed.
Proof.
  rewrite foldl_app. cbn [foldl].
  assert (Hst : ∀ st', read_token st' (NAME id) = Malformed)
    by (by intros []).
  rewrite Hst. apply read_after_malformed.
Qed.

Lemma repr_float_name x :
  is_finite x = false → ∃ id, NAME id ∈ repr_float x.
Proof.
  destruct x as [sg|sg| |sg m e]; cbn; try done; intros _.
  - exists "inf". apply elem_of_app. right. by left.
  - exists "nan". by left.
Qed.

Lemma elem_of_join_comma (tok : token) (item : list token)
    (items : list (list token)) :
  item ∈ items → tok ∈ item → tok ∈ join_comma items.
Proof.
  intros Hitem Htok. induction items as [|it [|it' items] IH].
  - by apply elem_of_nil in Hitem.
  - apply list_elem_of_singleton in Hitem as ->. done.
  - change (join_comma (it :: it' :: items))
      with (it ++ COMMA :: join_comma (it' :: items))%list.
    apply elem_of_app. apply elem_of_cons in Hitem as [->|Hitem].
    + by left.
    + right. right. by apply IH.
Qed.

Lemma repr_tuple_name t :
  ¬ Forall (λ x, is_finite x = true) t → ∃ id, NAME id ∈ repr_tuple t.
Proof.
  intros Hnot. apply not_Forall_Exists in Hnot; [|apply _].
  apply Exists_exists in Hnot as (x & Hx & Hfin). cbn in Hfin.
  destruct (repr_float_name x) as [id Hid].
  { by destruct (is_finite x). }
  exists id.
  assert (Hjoin : NAME id ∈ join_comma (repr_float <$> t)).
  { eapply elem_of_join_comma; [|exact Hid]. by apply list_elem_of_fmap_2. }
  destruct t as [|x0 [|x1 t]].
  - by apply elem_of_nil in Hx.
  - cbn in Hjoin |- *. right. apply elem_of_app. by left.
  - unfold repr_tuple. right. apply elem_of_app. by left.
Qed.

(** X16.  Reading back the text written for a list of coordinate tuples
    gives the list when all its components are finite numbers, and raises
    [ValueError] as soon as one component is an infinity or not-a-number:
    the round trip holds for the finite lists and for no other. *)
Theorem cell_read_back l :
  literal_eval (coordinates_cell l)
  = if decide (Forall (Forall (λ x, is_finite x = true)) l)
    then Ok l
    else Raise (ValueError "malformed node or string").
Proof.
  case_decide as Hfin; [by apply literal_eval_finite|].
  apply not_Forall_Exists in Hfin; [|apply _].
  apply Exists_exists in Hfin as (t & Ht & Hnot). cbn in Hnot.
  destruct (repr_tuple_name t Hnot) as [id Hid].
  assert (Hjoin : NAME id ∈ join_comma (repr_tuple <$> l)).
  { eapply elem_of_join_comma; [|exact Hid]. by apply list_elem_of_fmap_2. }
  apply list_elem_of_split in Hjoin as (ts & ts' & Hsplit).
  unfold literal_eval, coordinates_cell. rewrite Hsplit, <-app_assoc.
  cbn [app]. by rewrite read_name.
Qed.

Lemma point_of_cell_finite l :
  Forall (Forall (λ x, is_finite x = true)) l →
  point_of_cell (coordinates_cell l)
  = bind (Ok l) (λ l, match l with
                      | (lon :: lat :: _) :: _ => Ok (lon, lat)
                      | _ => Raise (IndexError "index out of range")
                      end).
Proof.
  intros Hfin. unfold point_of_cell. by rewrite literal_eval_finite.
Qed.

(** X17.  For a cell written from finite coordinates, the point made by
    the composer is the pair of the first two components of the first
    tuple; when the list is empty or its first tuple has fewer than two
    components, which the extractor accepts, the composer raises
    [IndexError]. *)
Theorem point_of_finite_cell l :
  Forall (Forall (λ x, is_finite x = true)) l →
  point_of_cell (coordinates_cell l)
  = match l with
    | (lon :: lat :: _) :: _ => Ok (lon, lat)
    | _ => Raise (IndexError "index out of range")
    end.
Proof.
  intros Hfin. unfold point_of_cell. by rewrite literal_eval_finite.
Qed.

End CellMore.

Section PointsTable.
Variable float : str → option spec_float.

(** X18.  The points table through the tabular file.  When the extractor
    returns and every row of its points table has finite components and
    at least two of them, the composer makes one point for each row, in
    order, from the longitude and latitude of the row's only tuple. *)
Theorem points_table_to_points (doc : list placemark)
    (segment_slice : Z * Z) (segments_df points_df : list route_row) :
  extract_kml_segments float doc segment_slice
  = Ok (segments_df, points_df) →
  Forall (λ r, Forall (λ t, Forall (λ x, is_finite x = true) t
                            ∧ (2 ≤ length t)%nat) (Coordinates r))
         points_df →
  ∃ points,
    points_geometry (to_csv_coordinates points_df) = Ok points
    ∧ Forall2 (λ r p, ∃ rest, Coordinates r = [p.1 :: p.2 :: rest])
              points_df points.
Proof.
  intros (table & _ & Hpts & _)%extract_ok Hfin.
  assert (Hone : Forall (λ r, length (Coordinates r) = 1%nat) points_df).
  { rewrite Hpts. apply Forall_forall.
    by intros r [? _]%list_elem_of_filter. }
  clear Hpts. unfold points_geometry, to_csv_coordinates.
  induction points_df as [|r pts IH].
  { exists []. split; [done|constructor]. }
  apply Forall_cons in Hfin as [Hr Hfin].
  apply Forall_cons in Hone as [Hlen Hone].
  destruct (IH Hfin Hone) as (points & Hpoints & Hall).
  destruct (Coordinates r) as [|t [|t' coords]] eqn:Hcoords;
    try discriminate Hlen.
  apply Forall_cons in Hr as [[Ht Harity] _].
  destruct t as [|lon [|lat rest]]; cbn in Harity; try lia.
  exists ((lon, lat) :: points). split.
  - cbn [fmap list_fmap traverse]. rewrite Hcoords.
    rewrite point_of_cell_finite by (constructor; [exact Ht|constructor]).
    cbn [bind]. cbn [fmap list_fmap] in Hpoints. by rewrite Hpoints.
  - constructor; [|done]. exists rest. by rewrite Hcoords.
Qed.

End PointsTable.

(** * The nature layer of the map *)

Section ComposerFacts.
Context `{G : Geometry}.
Implicit Types (gdf out : GeoDataFrame).

Lemma classify_range (r : gmap string value) :
  classify r = "forest" ∨ classify r = "grass" ∨ classify r = "other".
Proof.
  rewrite classify_unfold.
  destruct (tag_in _ _); [by left|].
  destruct (tag_in _ _); [by left|].
  destruct (tag_in _ _); [right; by left|right; by right].
Qed.

Lemma elem_of_assigned gdf (r' : row) :
  r' ∈ rows (assign_category gdf)
  ↔ ∃ r, r ∈ rows gdf
      ∧ geometry r' = geometry r
      ∧ cells r' = <["category" := VStr (classify (cells r))]> (cells r).
Proof.
  unfold assign_category. cbn [rows]. rewrite list_elem_of_fmap. split.
  - intros (r & -> & Hr). by exists r.
  - intros (r & Hr & Hg & Hc). exists r. split; [|done].
    destruct r'. cbn in *. by subst.
Qed.

Lemma assigned_source gdf thr wc (r' : row) (c : string) :
  r' ∈ retained (assign_category gdf) thr wc → category_of r' = Some c →
  ∃ r, r ∈ rows gdf ∧ thr < metric_area (crs gdf) wc r
       ∧ classify (cells r) = c.
Proof.
  intros [Harea Hr']%list_elem_of_filter Hcat.
  apply elem_of_assigned in Hr' as (r & Hr & Hg & Hc).
  exists r. split_and!; [done| |].
  - unfold metric_area in *. cbn [crs assign_category] in Harea.
    by rewrite <-Hg.
  - unfold category_of in Hcat. rewrite Hc, lookup_insert_eq in Hcat.
    congruence.
Qed.

Lemma assigned_retained gdf thr wc (r : row) :
  r ∈ rows gdf → thr < metric_area (crs gdf) wc r →
  ∃ r', r' ∈ retained (assign_category gdf) thr wc
        ∧ category_of r' = Some (classify (cells r)).
Proof.
  intros Hr Harea.
  exists {| geometry := geometry r;
            cells := <["category" := VStr (classify (cells r))]>
                       (cells r) |}.
  split.
  - apply list_elem_of_filter. split; [done|].
    apply elem_of_assigned. by exists r.
  - unfold category_of. cbn. by rewrite lookup_insert_eq.
Qed.

Lemma assigned_string_labels gdf : string_labels (rows (assign_category gdf)).
Proof.
  apply Forall_forall. intros r' (r & _ & _ & Hc)%elem_of_assigned.
  by rewrite Hc, lookup_insert_eq.
Qed.

Lemma assigned_has_category gdf : "category" ∈ columns (assign_category gdf).
Proof.
  unfold assign_category, columns_set. cbn [columns].
  case_decide; [done|]. apply elem_of_app. right. by left.
Qed.

(** The layers of the plotting loop, in closed form. *)
Lemma foldl_plot_groups (frame : string → GeoDataFrame)
    (keys : list string) : ∀ canvas : list layer,
  foldl plot_group canvas ((λ k, (k, frame k)) <$> keys)
  = (canvas
     ++ ((λ k, Layer (default "#cccccc" (nature_colors !! k)) k
                     (rows (frame k)))
           <$> filter (λ k, is_Some (nature_colors !! k)) keys))%list.
Proof.
  induction keys as [|k keys IH]; intros canvas.
  { cbn. by rewrite app_nil_r. }
  cbn [fmap list_fmap foldl]. rewrite IH, filter_cons.
  unfold plot_group at 1. case_decide; [|done].
  csimpl. by rewrite <-app_assoc.
Qed.

Lemma nature_color_cases (k : string) :
  is_Some (nature_colors !! k) ↔ k = "forest" ∨ k = "grass".
Proof.
  unfold nature_colors. split.
  - intros [color Hk].
    destruct (decide (k = "forest")) as [->|Hf]; [by left|].
    destruct (decide (k = "grass")) as [->|Hg]; [by right|].
    by rewrite !lookup_insert_ne, lookup_empty in Hk.
  - intros [-> | ->]; [by rewrite lookup_insert_eq|].
    rewrite lookup_insert_ne by done. by rewrite lookup_insert_eq.
Qed.

Lemma drawn_categories gdf out (r : row) :
  stylize_natural_geometries_default (assign_category gdf) = Ok out →
  r ∈ rows out →
  ∃ c, category_of r = Some c ∧ (c = "forest" ∨ c = "grass").
Proof.
  intros Hout Hr. apply stylize_rows in Hout as (_ & _ & Hrows).
  rewrite Hrows in Hr. apply list_elem_of_fmap in Hr as (x & -> & Hx).
  apply elem_of_merged_records in Hx as [Hother Hkey].
  apply elem_of_group_keys_iff in Hkey as (r0 & Hr0 & Hcat).
  destruct (assigned_source _ _ _ _ _ Hr0 Hcat) as (r1 & _ & _ & Hclass).
  exists (styled_category x). split.
  { unfold category_of. cbn. by rewrite lookup_singleton_eq. }
  destruct (classify_range (cells r1)) as [H|[H|H]]; rewrite Hclass in H;
    [by left|by right|done].
Qed.

Lemma plot_nature_layers out :
  columns out = ["category"] →
  plot_nature out
  = Ok ((λ k, Layer (default "#cccccc" (nature_colors !! k)) k
                    (labelled k (rows out)))
          <$> filter (λ k, is_Some (nature_colors !! k))
                     (group_keys (rows out))).
Proof.
  intros Hcols. unfold plot_nature, groupby_category.
  rewrite decide_True by (rewrite Hcols; by left).
  cbn [bind].
  by rewrite (foldl_plot_groups
                (λ k, {| crs := crs out; columns := columns out;
                         rows := filter (λ r, category_of r = Some k)
                                        (rows out) |})).
Qed.

(** X19.  Take a run in which no merged shape is a MultiPolygon without
    a part.  Drawing the nature layer (classification, merge with the
    threshold of 170000 m2, plotting loop) returns exactly when some loaded
    feature above that threshold is classified forest or grass; when
    features are loaded and none of them is, it stops with the ValueError
    of the empty result frame. *)
Theorem draw_nature_returns_iff gdf :
  Forall (λ g, multi_geoms g ≠ Some []) (nature_shapes gdf) →
  let nature r :=
    Qc_of_Z 170000 < metric_area (crs gdf) "EPSG:3857" r
    ∧ classify (cells r) ≠ "other" in
  ((∃ layers, draw_nature gdf = Ok layers) ↔ ∃ r, r ∈ rows gdf ∧ nature r)
  ∧ (rows gdf ≠ [] → (∀ r, r ∈ rows gdf → ¬ nature r) →
     draw_nature gdf
     = Raise (ValueError
         "Assigning CRS to a GeoDataFrame without a geometry column is not supported")).
Proof.
  intros Hshapes nature.
  unfold draw_nature, stylize_natural_geometries_default.
  cbv zeta. split; [split|].
  - intros [layers Hdraw].
    destruct (stylize_natural_geometries _ _ _ _ _ _ _) as [out|] eqn:Hout;
      [|done].
    apply stylize_rows in Hout as (_ & Hne & _).
    apply merged_records_source in Hne as (r' & c & Hr' & Hcat & Hother).
    destruct (assigned_source _ _ _ _ _ Hr' Hcat) as (r & Hr & Harea & Hc).
    exists r. split; [done|]. split; [done|]. by rewrite Hc.
  - intros (r & Hr & Harea & Hclass).
    destruct (assigned_retained gdf _ "EPSG:3857" r Hr Harea)
      as (r' & Hr' & Hcat).
    rewrite stylize_closed_form by apply assigned_has_category.
    pose proof (merged_records_nonempty
                  (crs (assign_category gdf)) "EPSG:3857" (Qc_of_Z 10)
                  (Qc_of_Z 5) (Qc_of_Z 2) _ r' _ Hshapes Hr' Hcat Hclass)
      as Hne.
    destruct (merged_records _ _ _ _ _ _) as [|x recs] eqn:Hrecs; [done|].
    cbn [GeoDataFrame_of_records bind].
    rewrite plot_nature_layers by done. eauto.
  - intros _ Hnone.
    rewrite stylize_closed_form by apply assigned_has_category.
    destruct (merged_records _ _ _ _ _ _) as [|x recs] eqn:Hrecs; [done|].
    exfalso.
    assert (Hne : merged_records (crs (assign_category gdf)) "EPSG:3857"
                    (Qc_of_Z 10) (Qc_of_Z 5) (Qc_of_Z 2)
                    (retained (assign_category gdf) (Qc_of_Z 170000)
                              "EPSG:3857") ≠ [])
      by (by rewrite Hrecs).
    apply merged_records_source in Hne as (r' & c & Hr' & Hcat & Hother).
    destruct (assigned_source _ _ _ _ _ Hr' Hcat) as (r & Hr & Harea & Hc).
    apply (Hnone r Hr). split; [done|]. by rewrite Hc.
Qed.

(** X20.  Whenever the nature layer is drawn, the layers are labelled
    forest or grass, at most one layer per label and forest first; a
    forest layer has [FOREST_COLOR] and a grass layer [GRASS_COLOR], so the
    fallback colour of the loop is never used; the shapes of a layer are
    the merged rows of its label, and every merged row is in a layer. *)
Theorem draw_nature_layers gdf (layers : list layer) :
  draw_nature gdf = Ok layers →
  ∃ out,
    stylize_natural_geometries_default (assign_category gdf) = Ok out
    ∧ StronglySorted string_lt (label <$> layers)
    ∧ Forall (λ ly, (label ly = "forest" ∧ facecolor ly = FOREST_COLOR
                     ∨ label ly = "grass" ∧ facecolor ly = GRASS_COLOR)
                    ∧ shapes ly = labelled (label ly) (rows out)) layers
    ∧ ∀ r, r ∈ rows out → ∃ ly, ly ∈ layers ∧ r ∈ shapes ly.
Proof.
  unfold draw_nature. cbv zeta.
  destruct (stylize_natural_geometries_default _) as [out|] eqn:Hout; [|done].
  cbn [bind]. intros Hdraw. exists out. split; [done|].
  assert (Hcols : columns out = ["category"]).
  { unfold stylize_natural_geometries_default in Hout.
    by apply stylize_result_frame in Hout as [_ ?]. }
  rewrite plot_nature_layers in Hdraw by done.
  injection Hdraw as <-. split_and!.
  - assert (Hlabels : ∀ ks : list string,
              label <$> ((λ k, Layer (default "#cccccc" (nature_colors !! k))
                                     k (labelled k (rows out))) <$> ks)
              = ks).
    { induction ks as [|k ks IH]; [done|]. csimpl. by f_equal. }
    rewrite Hlabels. apply sorted_filter_keys, group_keys_sorted.
  - apply Forall_forall. intros ly Hly.
    apply list_elem_of_fmap in Hly as (k & -> & Hk).
    apply list_elem_of_filter in Hk as [Hcolor _]. cbn. split; [|done].
    apply nature_color_cases in Hcolor as [-> | ->]; [by left|by right].
  - intros r Hr.
    destruct (drawn_categories gdf out r Hout Hr) as (c & Hcat & Hc).
    exists (Layer (default "#cccccc" (nature_colors !! c)) c
                  (labelled c (rows out))).
    split.
    + apply (list_elem_of_fmap_2
               (λ k, Layer (default "#cccccc" (nature_colors !! k)) k
                           (labelled k (rows out)))).
      apply list_elem_of_filter. split.
      * by apply nature_color_cases.
      * apply elem_of_group_keys_iff. by exists r.
    + cbn. by apply list_elem_of_filter.
Qed.

End ComposerFacts.

(** * The further properties at concrete inputs *)

Section Scenarios.
Import BoxGeometry Examples Scenes.

Lemma nature_merge_returns :
  ∃ out : @GeoDataFrame box_geometry,
    stylize_natural_geometries nature (Qc_of_Z 170000) (Qc_of_Z 10)
      (Qc_of_Z 5) (Qc_of_Z 2) wgs84 web_mercator = Ok out.
Proof.
  destruct (stylize_natural_geometries nature _ _ _ _ _ _) as [out|e] eqn:Hout;
    [by exists out|].
  apply (f_equal (λ res, match res with
                         | Ok _ => true
                         | Raise _ => false
                         end)) in Hout.
  vm_compute in Hout. discriminate Hout.
Qed.

Lemma moorland_merge_returns :
  ∃ out : @GeoDataFrame box_geometry,
    stylize_natural_geometries moorland (Qc_of_Z 170000) (Qc_of_Z 10)
      (Qc_of_Z 5) (Qc_of_Z 2) wgs84 web_mercator = Ok out.
Proof.
  destruct (stylize_natural_geometries moorland _ _ _ _ _ _)
    as [out|e] eqn:Hout; [by exists out|].
  apply (f_equal (λ res, match res with
                         | Ok _ => true
                         | Raise _ => false
                         end)) in Hout.
  vm_compute in Hout. discriminate Hout.
Qed.

Lemma box_shapes_have_parts (shapes : list box) :
  Forall (λ g, multi_geoms g ≠ Some []) shapes.
Proof. apply Forall_forall. by intros g _. Qed.

Lemma box_shapes_are_single (shapes : list box) :
  Forall (λ g, multi_geoms g = None) shapes.
Proof. apply Forall_forall. by intros g _. Qed.

Lemma nature_has_category : "category" ∈ columns nature.
Proof. apply list_elem_of_In. vm_compute. tauto. Qed.

(** X1 at the land cover example. *)
Lemma nature_output_has_only_category :
  ∃ out : @GeoDataFrame box_geometry,
    stylize_natural_geometries_default nature = Ok out
    ∧ crs out = wgs84
    ∧ columns out = ["category"]
    ∧ Forall (λ r, ∃ c, cells r = {[ "category" := VStr c ]}) (rows out).
Proof.
  destruct nature_merge_returns as [out Hout]. exists out.
  split; [exact Hout|].
  exact (stylize_output_has_only_category nature (Qc_of_Z 170000)
           (Qc_of_Z 10) (Qc_of_Z 5) (Qc_of_Z 2) wgs84 web_mercator out Hout).
Defined.

(** X3 at the land cover example: the wood is above the threshold and is
    not labelled "other", so the merge returns. *)
Lemma nature_merge_returns_for_the_wood :
  "category" ∈ columns nature
  ∧ string_labels (rows nature)
  ∧ Forall (λ g, multi_geoms g ≠ Some [])
           (merged_shapes (crs nature) web_mercator (Qc_of_Z 10) (Qc_of_Z 5)
              (Qc_of_Z 2) (retained nature (Qc_of_Z 170000) web_mercator))
  ∧ ∃ out : @GeoDataFrame box_geometry,
      stylize_natural_geometries nature (Qc_of_Z 170000) (Qc_of_Z 10)
        (Qc_of_Z 5) (Qc_of_Z 2) wgs84 web_mercator = Ok out.
Proof.
  assert (Hlabels : string_labels (rows nature))
    by apply assigned_string_labels.
  assert (Hshapes :
      Forall (λ g, multi_geoms g ≠ Some [])
             (merged_shapes (crs nature) web_mercator (Qc_of_Z 10)
                (Qc_of_Z 5) (Qc_of_Z 2)
                (retained nature (Qc_of_Z 170000) web_mercator)))
    by apply box_shapes_have_parts.
  split; [exact nature_has_category|].
  split; [exact Hlabels|]. split; [exact Hshapes|].
  apply (stylize_returns_iff nature (Qc_of_Z 170000) (Qc_of_Z 10)
           (Qc_of_Z 5) (Qc_of_Z 2) wgs84 web_mercator nature_has_category
           Hlabels Hshapes).
  eexists _, "forest". split; [by left|].
  split; [by vm_compute|]. split; [reflexivity|discriminate].
Defined.

(** X4 at the land cover example. *)
Lemma nature_categories_come_from_retained_rows :
  ∃ out : @GeoDataFrame box_geometry,
    stylize_natural_geometries_default nature = Ok out
    ∧ Forall (λ r, ∃ c src, category_of r = Some c
                            ∧ src ∈ rows nature
                            ∧ Qc_of_Z 170000
                              < metric_area (crs nature) web_mercator src
                            ∧ category_of src = Some c)
             (rows out).
Proof.
  destruct nature_merge_returns as [out Hout]. exists out.
  split; [exact Hout|].
  exact (stylize_categories_come_from_retained_rows nature (Qc_of_Z 170000)
           (Qc_of_Z 10) (Qc_of_Z 5) (Qc_of_Z 2) wgs84 web_mercator out Hout).
Defined.

(** X6 at the two land covers: the forest rows of the results agree,
    whatever the heaths and the meadow are. *)
Lemma forest_of_nature_and_moorland :
  ∃ out1 out2 : @GeoDataFrame box_geometry,
    stylize_natural_geometries_default nature = Ok out1
    ∧ stylize_natural_geometries_default moorland = Ok out2
    ∧ geometry <$> labelled "forest"
                     (retained nature (Qc_of_Z 170000) web_mercator)
      = geometry <$> labelled "forest"
                       (retained moorland (Qc_of_Z 170000) web_mercator)
    ∧ labelled "forest" (rows out1) = labelled "forest" (rows out2).
Proof.
  destruct nature_merge_returns as [out1 Hout1].
  destruct moorland_merge_returns as [out2 Hout2].
  assert (Hgeoms :
      geometry <$> labelled "forest"
                     (retained nature (Qc_of_Z 170000) web_mercator)
      = geometry <$> labelled "forest"
                       (retained moorland (Qc_of_Z 170000) web_mercator)).
  { vm_compute. reflexivity. }
  exists out1, out2. split_and!; [exact Hout1|exact Hout2|exact Hgeoms|].
  exact (stylize_category_independent nature moorland (Qc_of_Z 170000)
           (Qc_of_Z 10) (Qc_of_Z 5) (Qc_of_Z 2) wgs84 web_mercator "forest"
           out1 out2 eq_refl Hout1 Hout2 Hgeoms).
Defined.

(** X7 at the moorland: the heath comes first in the input, the forest
    first in the result. *)
Lemma moorland_rows_sorted_by_category :
  ∃ out : @GeoDataFrame box_geometry,
    stylize_natural_geometries_default moorland = Ok out
    ∧ StronglySorted string_le (categories (rows out)).
Proof.
  destruct moorland_merge_returns as [out Hout]. exists out.
  split; [exact Hout|].
  exact (stylize_rows_sorted_by_category moorland (Qc_of_Z 170000)
           (Qc_of_Z 10) (Qc_of_Z 5) (Qc_of_Z 2) wgs84 web_mercator out Hout).
Defined.

Example moorland_categories :
  (λ out, categories (rows out))
    <$> match stylize_natural_geometries_default moorland with
        | Ok out => Some out
        | Raise _ => None
        end
  = Some ["forest"; "grass"].
Proof. vm_compute. reflexivity. Qed.

(** X8 at the moorland, in the kernel of boxes, where no shape is a
    MultiPolygon: a forest row and a grass row, none for the copse. *)
Lemma moorland_one_row_per_category :
  string_labels (rows moorland)
  ∧ Forall (λ g, multi_geoms g = None)
           (merged_shapes (crs moorland) web_mercator (Qc_of_Z 10)
              (Qc_of_Z 5) (Qc_of_Z 2)
              (retained moorland (Qc_of_Z 170000) web_mercator))
  ∧ ∃ out : @GeoDataFrame box_geometry,
      stylize_natural_geometries_default moorland = Ok out
      ∧ length (categories (rows out)) = length (rows out)
      ∧ NoDup (categories (rows out))
      ∧ ∀ c, c ∈ categories (rows out)
             ↔ c ≠ "other"
               ∧ ∃ r, r ∈ rows moorland
                      ∧ Qc_of_Z 170000
                        < metric_area (crs moorland) web_mercator r
                      ∧ category_of r = Some c.
Proof.
  assert (Hlabels : string_labels (rows moorland))
    by apply assigned_string_labels.
  assert (Hshapes :
      Forall (λ g, multi_geoms g = None)
             (merged_shapes (crs moorland) web_mercator (Qc_of_Z 10)
                (Qc_of_Z 5) (Qc_of_Z 2)
                (retained moorland (Qc_of_Z 170000) web_mercator)))
    by apply box_shapes_are_single.
  split; [exact Hlabels|]. split; [exact Hshapes|].
  destruct moorland_merge_returns as [out Hout]. exists out.
  split; [exact Hout|].
  exact (stylize_one_row_per_category moorland (Qc_of_Z 170000)
           (Qc_of_Z 10) (Qc_of_Z 5) (Qc_of_Z 2) wgs84 web_mercator out
           Hlabels Hshapes Hout).
Defined.

(** X9 at the water features, for the thresholds of 10000 and 100000
    square metres. *)
Lemma lakes_threshold_monotone :
  Qc_of_Z 10000 ≤ Qc_of_Z 100000
  ∧ rows (filter_and_smooth_geometries lakes (Qc_of_Z 100000) (Qc_of_Z 10)
            (Qc_of_Z 3) wgs84 web_mercator)
    `sublist_of` rows (filter_and_smooth_geometries lakes (Qc_of_Z 10000)
                         (Qc_of_Z 10) (Qc_of_Z 3) wgs84 web_mercator).
Proof.
  assert (Hle : Qc_of_Z 10000 ≤ Qc_of_Z 100000) by (by vm_compute).
  split; [exact Hle|].
  exact (filter_threshold_monotone lakes (Qc_of_Z 10000) (Qc_of_Z 100000)
           (Qc_of_Z 10) (Qc_of_Z 3) wgs84 web_mercator Hle).
Defined.

Example lakes_by_threshold :
  length (rows (filter_and_smooth_geometries lakes (Qc_of_Z 100000)
                  (Qc_of_Z 10) (Qc_of_Z 3) wgs84 web_mercator)) = 1%nat
  ∧ length (rows (filter_and_smooth_geometries lakes (Qc_of_Z 10000)
                    (Qc_of_Z 10) (Qc_of_Z 3) wgs84 web_mercator)) = 2%nat.
Proof. split; vm_compute; reflexivity. Qed.

(** X12 at the damaged document: the third placemark decides, although the
    fourth has no coordinates element. *)
Lemma damaged_document_raises :
  Forall (readable float_of_simple) (take 2 damaged_document)
  ∧ ¬ readable float_of_simple damaged_stage
  ∧ extract_kml_segments float_of_simple damaged_document
      default_segment_slice
    = Raise (ValueError "could not convert string to float").
Proof.
  assert (Hpre : Forall (readable float_of_simple) (take 2 damaged_document)).
  { repeat constructor; apply read_placemark_readable; eexists;
      vm_compute; reflexivity. }
  assert (Hpm : ¬ readable float_of_simple damaged_stage).
  { intros [r Hr]%read_placemark_readable. vm_compute in Hr.
    discriminate Hr. }
  split_and!; [exact Hpre|exact Hpm|].
  exact (extractor_first_failure float_of_simple (take 2 damaged_document)
           (drop 3 damaged_document) damaged_stage default_segment_slice
           Hpre Hpm).
Defined.

(** White space beyond ASCII separates coordinates as the blank does: the
    first path has two tuples; in the second the no-break space ends the
    token [4,], whose last field is empty and is refused by [float]. *)
Example no_break_space_separates :
  split_whitespace (str_of "4,55,0" ++ [160%N] ++ str_of "4,56,0")%list
  = [str_of "4,55,0"; str_of "4,56,0"]
  ∧ match read_placemark float_of_simple spaced_path with
    | Ok r => length <$> Coordinates r
    | Raise _ => []
    end = [3; 3]%nat
  ∧ read_placemark float_of_simple spaced_field
    = Raise (ValueError "could not convert string to float").
Proof. split_and!; reflexivity. Qed.

(** A write that fails is the exception of the call; without [save_csv]
    nothing is written. *)
Example failed_write_is_raised :
  let full (_ : list route_row) := Some (OSError "No space left on device") in
  extract_kml_segments_save_csv float_of_simple (λ _, None) full
    route_document default_segment_slice true
  = Raise (OSError "No space left on device")
  ∧ extract_kml_segments_save_csv float_of_simple full full
      route_document default_segment_slice false
    = extract_kml_segments float_of_simple route_document
        default_segment_slice.
Proof. split; reflexivity. Qed.

(** X13 at the route document. *)
Lemma route_document_rows_follow_text :
  ∃ segments_df points_df table,
    extract_kml_segments float_of_simple route_document default_segment_slice
    = Ok (segments_df, points_df)
    ∧ Forall2
        (λ pm r, ∃ text,
           coordinates_element pm = Some (Some text)
           ∧ Name r = row_name pm
           ∧ length (Coordinates r) = length (split_whitespace text)
           ∧ Forall2 (λ tok tuple,
                        Forall2 (λ field x, float_of_simple field = Some x)
                                (split_comma tok) tuple)
                     (split_whitespace text) (Coordinates r))
        route_document table
    ∧ points_df = filter (λ r, length (Coordinates r) = 1%nat) table.
Proof.
  destruct (extract_kml_segments float_of_simple route_document
              default_segment_slice) as [[segments_df points_df]|e] eqn:Hret.
  - destruct (extractor_rows_follow_text float_of_simple route_document
                default_segment_slice segments_df points_df Hret)
      as (table & Hrows & Hpoints).
    by exists segments_df, points_df, table.
  - vm_compute in Hret. discriminate Hret.
Defined.

(** X14 at the route document. *)
Lemma route_document_tables_are_sublists :
  ∃ segments_df points_df table,
    extract_kml_segments float_of_simple route_document default_segment_slice
    = Ok (segments_df, points_df)
    ∧ traverse (read_placemark float_of_simple) route_document = Ok table
    ∧ length table = length route_document
    ∧ points_df `sublist_of` table
    ∧ segments_df `sublist_of` table
    ∧ (∀ r, r ∈ points_df ∨ r ∈ segments_df → Coordinates r ≠ [])
    ∧ (length points_df + length segments_df ≤ length route_document)%nat.
Proof.
  destruct (extract_kml_segments float_of_simple route_document
              default_segment_slice) as [[segments_df points_df]|e] eqn:Hret.
  - destruct (extractor_tables_are_sublists float_of_simple route_document
                default_segment_slice segments_df points_df Hret)
      as (table & Hrest).
    by exists segments_df, points_df, table.
  - vm_compute in Hret. discriminate Hret.
Defined.

(** X15 at the route document, for the slice from 1 to 3: of the five
    paths, the second and the third. *)
Lemma route_document_window :
  (0 ≤ 1)%Z ∧ (0 ≤ 3)%Z
  ∧ ∃ segments_df points_df table,
      extract_kml_segments float_of_simple route_document (1%Z, 3%Z)
      = Ok (segments_df, points_df)
      ∧ Name <$> segments_df = [Some "Stage 2"; Some "Stage 3"]
      ∧ traverse (read_placemark float_of_simple) route_document = Ok table
      ∧ (length segments_df ≤ Z.to_nat (3 - 1))%nat
      ∧ ∀ i : nat,
          segments_df !! i
          = if decide (1 + Z.of_nat i < 3)%Z
            then filter (λ r, (1 < length (Coordinates r))%nat) table
                 !! (Z.to_nat 1 + i)%nat
            else None.
Proof.
  assert (H1 : (0 ≤ 1)%Z) by lia. assert (H3 : (0 ≤ 3)%Z) by lia.
  split; [exact H1|]. split; [exact H3|].
  destruct (extract_kml_segments float_of_simple route_document (1%Z, 3%Z))
    as [[segments_df points_df]|e] eqn:Hret.
  - destruct (extractor_segments_window float_of_simple route_document 1 3
                segments_df points_df H1 H3 Hret) as (table & Htable & Hrest).
    exists segments_df, points_df, table.
    vm_compute in Hret. injection Hret as <- <-.
    split_and!; [reflexivity|reflexivity|exact Htable|apply Hrest..].
  - vm_compute in Hret. discriminate Hret.
Defined.

(** X17 at the coordinates of the two towns: the point is Milngavie's
    longitude and latitude. *)
Lemma town_point :
  Forall (Forall (λ x, is_finite x = true)) town_coordinates
  ∧ point_of_cell (coordinates_cell town_coordinates)
    = Ok (S754_finite true 4856794428147027 (-50),
          S754_finite false 7873038057331910 (-47)).
Proof.
  assert (Hfin : Forall (Forall (λ x, is_finite x = true)) town_coordinates).
  { repeat constructor. }
  split; [exact Hfin|].
  exact (point_of_finite_cell town_coordinates Hfin).
Defined.

(** X18 at the route document: its two points of interest. *)
Lemma route_document_points :
  ∃ segments_df points_df points,
    extract_kml_segments float_of_simple route_document default_segment_slice
    = Ok (segments_df, points_df)
    ∧ Forall (λ r, Forall (λ t, Forall (λ x, is_finite x = true) t
                                ∧ (2 ≤ length t)%nat) (Coordinates r))
             points_df
    ∧ length points = 2%nat
    ∧ points_geometry (to_csv_coordinates points_df) = Ok points
    ∧ Forall2 (λ r p, ∃ rest, Coordinates r = [p.1 :: p.2 :: rest])
              points_df points.
Proof.
  destruct (extract_kml_segments float_of_simple route_document
              default_segment_slice) as [[segments_df points_df]|e] eqn:Hret.
  - assert (Hfin : Forall (λ r, Forall (λ t, Forall (λ x, is_finite x = true) t
                                             ∧ (2 ≤ length t)%nat)
                                       (Coordinates r)) points_df).
    { pose proof Hret as Hval. vm_compute in Hval.
      injection Hval as <- <-. repeat constructor. }
    destruct (points_table_to_points float_of_simple route_document
                default_segment_slice segments_df points_df Hret Hfin)
      as (points & Hpoints & Hrows).
    exists segments_df, points_df, points.
    split_and!; [reflexivity|exact Hfin| |exact Hpoints|exact Hrows].
    apply Forall2_length in Hrows. rewrite <-Hrows.
    vm_compute in Hret. by injection Hret as <- <-.
  - vm_compute in Hret. discriminate Hret.
Defined.

(** X19 at the land cover: the wood is above the threshold and is
    classified forest, so the layer is drawn. *)
Lemma land_cover_is_drawn :
  Forall (λ g, multi_geoms g ≠ Some []) (nature_shapes land_cover)
  ∧ ∃ layers, draw_nature land_cover = Ok layers.
Proof.
  assert (Hshapes : Forall (λ g, multi_geoms g ≠ Some [])
                           (nature_shapes land_cover))
    by apply box_shapes_have_parts.
  split; [exact Hshapes|].
  apply (proj1 (draw_nature_returns_iff land_cover Hshapes)).
  eexists. split; [by left|]. split; [by vm_compute|].
  vm_compute. discriminate.
Defined.

(** X20 at the land cover: a forest layer and a grass layer. *)
Lemma land_cover_layers :
  ∃ (layers : list (@layer box_geometry)) (out : @GeoDataFrame box_geometry),
    draw_nature land_cover = Ok layers
    ∧ label <$> layers = ["forest"; "grass"]
    ∧ stylize_natural_geometries_default (assign_category land_cover) = Ok out
    ∧ StronglySorted string_lt (label <$> layers)
    ∧ Forall (λ ly, (label ly = "forest" ∧ facecolor ly = FOREST_COLOR
                     ∨ label ly = "grass" ∧ facecolor ly = GRASS_COLOR)
                    ∧ shapes ly = labelled (label ly) (rows out)) layers
    ∧ ∀ r, r ∈ rows out → ∃ ly, ly ∈ layers ∧ r ∈ shapes ly.
Proof.
  destruct (draw_nature land_cover) as [layers|e] eqn:Hdraw.
  - destruct (draw_nature_layers land_cover layers Hdraw)
      as (out & Hout & Hrest).
    exists layers, out. split_and!; [reflexivity| |exact Hout|apply Hrest..].
    apply (f_equal (λ res, match res with
                           | Ok ls => label <$> ls
                           | Raise _ => []
                           end)) in Hdraw.
    rewrite <-Hdraw. vm_compute. reflexivity.
  - apply (f_equal (λ res, match res with
                           | Ok _ => true
                           | Raise _ => false
                           end)) in Hdraw.
    vm_compute in Hdraw. discriminate Hdraw.
Defined.

End Scenarios.
